(* ========================================================================== *)
(*  Orders and differentials of function fields                               *)
(*  (sage/rings/function_field/order.py, differential.py)                     *)
(*                                                                            *)
(*  A shallow embedding of the order and differential classes, over           *)
(*  MathComp's polynomials, fraction fields, matrices and finite fields.      *)
(*                                                                            *)
(*  Conventions                                                               *)
(*    - k is the constant field, o = k[x] is {poly k}, and the rational       *)
(*      function field K = k(x) is {fraction {poly k}};                       *)
(*    - a Python call that may raise returns a [result];                      *)
(*    - objects the module only consumes (vector spaces, Hermite forms,       *)
(*      factorisation, residue fields, ...) are Section variables or fields   *)
(*      of an interface record, with their contract stated where it is used.  *)
(* ========================================================================== *)

From HB Require Import structures.
From mathcomp Require Import boot order algebra field.
From Stdlib Require String.
Import String.StringSyntax.

Set Implicit Arguments.
Unset Strict Implicit.
Unset Printing Implicit Defensive.

Import GRing.Theory Order.Theory Num.Theory.
Local Open Scope ring_scope.
Local Open Scope quotient_scope.
Delimit Scope string_scope with string.

Notation "x %:F" := (@tofrac _ x).

(* ========================================================================== *)
(** * Python values                                                           *)
(* ========================================================================== *)

(** The exceptions the two modules raise, with their fixed message text. *)
Variant exception : Type :=
| ValueError of String.string
| TypeError of String.string
| AssertionError of String.string
| ZeroDivisionError
| NameError of String.string
| AttributeError of String.string
| IndexError of String.string.

(** The outcome of a call: a value, or a raised exception. *)
Variant result (T : Type) : Type :=
| Return of T
| Raise of exception.

Arguments Return {T} _.
Arguments Raise {T} _.

Definition bind {T U : Type} (r : result T) (f : T -> result U) : result U :=
  match r with
  | Return x => f x
  | Raise e => Raise e
  end.

Notation "'do' x <- r ; c" := (bind r (fun x => c))
  (at level 200, x name, r at level 100, c at level 200, right associativity).

Definition raises {T : Type} (r : result T) : bool :=
  if r is Raise _ then true else false.

(** [s[i]] for a list and a non-negative index. *)
Definition getitem {T : Type} (s : seq T) (i : nat) : option T := ohead (drop i s).

(** What a method may hand back where the classes disagree on the shape:
    a tuple of field elements, or one bare field element. *)
Variant pyobject (T : Type) : Type :=
| PyTuple of seq T
| PyElement of T.

Arguments PyTuple {T} _.
Arguments PyElement {T} _.

(* ========================================================================== *)
(** * Part A.  Rational function fields                                       *)
(* ========================================================================== *)

Section RationalFunctionField.

Variable k : fieldType.

Local Notation o := {poly k}.
Local Notation K := {fraction {poly k}}.

(** ** Polynomials over the constant field, as Sage computes with them *)

(** [p.degree()]: the zero polynomial has degree -1. *)
Definition degree (p : o) : int := (size p)%:Z - 1.

(** [p.monic()]: division by the leading coefficient. *)
Definition to_monic (p : o) : result o :=
  if p == 0 then Raise ZeroDivisionError else Return ((lead_coef p)^-1 *: p).

(** [p.gcd(q)]: the monic greatest common divisor (0 when both are 0). *)
Definition gcd (p q : o) : o := (lead_coef (gcdp p q))^-1 *: gcdp p q.

(** [p.lcm(q)]: [f = p*q; g = p.gcd(q); q = f//g; ~q.leading_coefficient()*q]. *)
Definition lcm (p q : o) : o :=
  let f := p * q in
  let g := gcd p q in
  let q := f %/ g in
  (lead_coef q)^-1 *: q.

(** [gcd(v)] of a list: [g = 0; for vi in v: g = vi.gcd(g)]. *)
Definition gcd_list (v : seq o) : o := foldl (fun g vi => gcd vi g) 0 v.

(** [lcm(v)] of a list: [g = 1; for vi in v: g = vi.lcm(g)]. *)
Definition lcm_list (v : seq o) : o := foldl (fun g vi => lcm vi g) 1 v.

(** ** Elements of k(x): reduced numerator and monic denominator *)

Definition numerator (f : K) : o :=
  let n := \n_(repr f) in
  let d := \d_(repr f) in
  (lead_coef (d %/ gcdp n d))^-1 *: (n %/ gcdp n d).

Definition denominator (f : K) : o :=
  let n := \n_(repr f) in
  let d := \d_(repr f) in
  (lead_coef (d %/ gcdp n d))^-1 *: (d %/ gcdp n d).

(** [K.gen()]: the generator x. *)
Definition K_gen : K := 'X%:F.

(** ** Ideals of the two maximal orders of k(x) *)

(** [FunctionFieldIdeal_rational(ring, gen)]: a principal fractional ideal of
    the maximal order k[x]; [gens()] is the one-element tuple [(gen,)]. *)
Record FunctionFieldIdeal_rational : Type :=
  mkFunctionFieldIdeal_rational { ideal_rational_gen : K }.

(** [FunctionFieldIdealInfinite_rational(ring, gen)]: the same for the maximal
    infinite order. *)
Record FunctionFieldIdealInfinite_rational : Type :=
  mkFunctionFieldIdealInfinite_rational { ideal_infinite_rational_gen : K }.

(** The three shapes of the argument tuple [gens] that the [ideal] methods accept. *)
Variant ideal_args (I : Type) : Type :=
| Gens of seq K        (* O.ideal(g1, ..., gm), every gi a field element *)
| GensList of seq K    (* O.ideal([g1, ..., gm]), one list or tuple *)
| GensIdeal of I.      (* O.ideal(J), one ideal *)

Arguments Gens {I} _.
Arguments GensList {I} _.
Arguments GensIdeal {I} _.

(** The head of both [ideal] methods:
    [if len(gens) == 1: gens = gens[0]; if not isinstance(gens, (list, tuple)):
         if is_Ideal(gens): gens = gens.gens() else: gens = (gens,)]. *)
Definition unpack_gens {I : Type} (ideal_gens : I -> seq K) (args : ideal_args I) : seq K :=
  match args with
  | Gens [:: g] => [:: g]
  | Gens gs => gs
  | GensList l => l
  | GensIdeal J => ideal_gens J
  end.

(** *** [FunctionFieldMaximalOrder_rational] *)

(** [self._basis = (self.one(),)] and [basis()] returns it. *)
Definition MaximalOrder_rational_basis : pyobject K := PyTuple [:: 1].

(** [FunctionFieldMaximalOrder_rational.ideal] (called with any number of generators). *)
Definition MaximalOrder_rational_ideal (args : ideal_args FunctionFieldIdeal_rational) :
    result FunctionFieldIdeal_rational :=
  let gens := unpack_gens (fun J => [:: ideal_rational_gen J]) args in
  let gens := [seq e <- gens | e != 0] in
  do gen <- (if size gens == 0%N then Return 0
             else
               do d <- to_monic (lcm_list [seq denominator c | c <- gens]);
               do g <- to_monic (gcd_list [seq numerator (d%:F * c) | c <- gens]);
               Return (g%:F / d%:F));
  Return (mkFunctionFieldIdeal_rational gen).

(** *** [FunctionFieldMaximalOrderInfinite_rational] *)

(** [basis()] of the maximal infinite order returns [1/self.function_field().gen()]. *)
Definition MaximalOrderInfinite_rational_basis : pyobject K := PyElement (1 / K_gen).

(** [max(iterable)]: ValueError on an empty iterable, else the first largest item. *)
Definition pymax (s : seq int) : result int :=
  if s is x :: s' then Return (foldl (fun m y => if (m < y)%R then y else m) x s')
  else Raise (ValueError "max() arg is an empty sequence"%string).

(** [FunctionFieldMaximalOrderInfinite_rational.ideal] (called with any number of generators). *)
Definition MaximalOrderInfinite_rational_ideal
    (args : ideal_args FunctionFieldIdealInfinite_rational) :
    result FunctionFieldIdealInfinite_rational :=
  let gens := unpack_gens (fun J => [:: ideal_infinite_rational_gen J]) args in
  do gen <- match pymax [seq degree (numerator g) - degree (denominator g) | g <- gens & g != 0] with
            | Return d => Return (K_gen ^ d)
            | Raise (ValueError _) => Return 0
            | Raise e => Raise e
            end;
  Return (mkFunctionFieldIdealInfinite_rational gen).

(** ** The words of the specification *)

(** [d] is the monic least common multiple of the polynomials [s]. *)
Definition monic_lcm_of (d : o) (s : seq o) : Prop :=
  [/\ d \is monic, {in s, forall p, p %| d} & forall m, {in s, forall p, p %| m} -> d %| m].

(** [g] is the monic greatest common divisor of the polynomials [s]. *)
Definition monic_gcd_of (g : o) (s : seq o) : Prop :=
  [/\ g \is monic, {in s, forall p, g %| p} & forall m, {in s, forall p, m %| p} -> m %| g].

(** [d] is the maximum of the integers [s]. *)
Definition maximum_of (d : int) (s : seq int) : Prop :=
  d \in s /\ {in s, forall e, (e <= d)%R}.

(** The call returned the ideal of the maximal order that the field elements
    [gens] generate: the zero ideal when they are all zero, and otherwise the
    principal ideal of g/d, with d the monic least common multiple of their
    denominators and g the monic greatest common divisor of the numerators
    of d*c for the nonzero c among them. *)
Definition is_ideal_generated_by (gens : seq K) (r : result FunctionFieldIdeal_rational) :
    Prop :=
  if all (fun c => c == 0) gens then r = Return (mkFunctionFieldIdeal_rational 0)
  else
    exists d g : o,
      [/\ r = Return (mkFunctionFieldIdeal_rational (g%:F / d%:F)),
          monic_lcm_of d [seq denominator c | c <- gens]
        & monic_gcd_of g [seq numerator (d%:F * c) | c <- gens & c != 0]].

(** The call returned the ideal of the maximal infinite order that the field
    elements [gens] generate: the zero ideal when they are all zero, and
    otherwise the principal ideal of x^d, with d the maximum over the nonzero
    c among them of the degree of the numerator minus that of the
    denominator. *)
Definition is_infinite_ideal_generated_by (gens : seq K)
    (r : result FunctionFieldIdealInfinite_rational) : Prop :=
  if all (fun c => c == 0) gens then r = Return (mkFunctionFieldIdealInfinite_rational 0)
  else
    exists d : int,
      r = Return (mkFunctionFieldIdealInfinite_rational (K_gen ^ d))
      /\ maximum_of d [seq degree (numerator g) - degree (denominator g) | g <- gens & g != 0].


(** ** Properties of the collaborators' models *)

Implicit Types (p q m : o) (f : K).

Lemma pi_ratioE (x : {ratio {poly k}}) : \pi_K x * (\d_x)%:F = (\n_x)%:F.
Proof.
unlock tofrac; rewrite -[LHS]FracField.pi_mul; apply/eqmodP; rewrite /= FracField.equivfE.
by rewrite /FracField.mulf !numden_Ratio ?mulr1 ?oner_eq0 ?denom_ratioP // mulrC.
Qed.

Lemma fracE f : f = (\n_(repr f))%:F / (\d_(repr f))%:F.
Proof.
have dn0 : (\d_(repr f))%:F != 0 :> K by rewrite tofrac_eq0 denom_ratioP.
by apply: (mulIf dn0); rewrite divfK // -[X in X * _]reprK pi_ratioE.
Qed.

Lemma frac_eq (n1 d1 n2 d2 : o) : d1 != 0 -> d2 != 0 ->
  (n1%:F / d1%:F == n2%:F / d2%:F :> K) = (n1 * d2 == n2 * d1).
Proof.
move=> d1n0 d2n0.
have d1F : d1%:F != 0 :> K by rewrite tofrac_eq0.
have d2F : d2%:F != 0 :> K by rewrite tofrac_eq0.
rewrite -(inj_eq (mulIf d1F)) (divfK d1F) mulrAC.
rewrite -(inj_eq (mulIf d2F)) (divfK d2F) -!tofracM.
exact: tofrac_eq.
Qed.

Lemma scale_lead_monic p : p != 0 -> (lead_coef p)^-1 *: p \is monic.
Proof. by move=> pn0; rewrite monicE lead_coefZ mulVf ?lead_coef_eq0. Qed.

Lemma scale_lead_eqp p : (lead_coef p)^-1 *: p %= p.
Proof.
have [->|pn0] := eqVneq p 0; first by rewrite scaler0 eqpxx.
by rewrite eqp_scale // invr_eq0 lead_coef_eq0.
Qed.

Lemma eqp_eq0 p q : p %= q -> (p == 0) = (q == 0).
Proof. by move=> pq; rewrite -!eqp0 (eqp_ltrans pq). Qed.

Lemma to_monic_id p : p \is monic -> to_monic p = Return p.
Proof.
move=> pm; rewrite /to_monic (negPf (monic_neq0 pm)).
by rewrite (eqP pm) invr1 scale1r.
Qed.

Lemma denominator_monic f : denominator f \is monic.
Proof.
rewrite /denominator; apply: scale_lead_monic.
by rewrite dvdp_div_eq0 ?dvdp_gcdr // denom_ratioP.
Qed.

Lemma denominator_neq0 f : denominator f != 0.
Proof. exact: monic_neq0 (denominator_monic f). Qed.

Lemma numden_coprime f : coprimep (numerator f) (denominator f).
Proof.
rewrite /numerator /denominator.
have dn0 := denom_ratioP (repr f).
set c := (lead_coef _)^-1.
have cn0 : c != 0 by rewrite invr_eq0 lead_coef_eq0 dvdp_div_eq0 ?dvdp_gcdr.
by rewrite coprimepZl // coprimepZr // coprimep_div_gcd // dn0 orbT.
Qed.

Lemma numdenE f : f = (numerator f)%:F / (denominator f)%:F.
Proof.
have dn0 := denom_ratioP (repr f).
apply/eqP; rewrite [X in X == _]fracE frac_eq ?denominator_neq0 //.
rewrite /numerator /denominator; set g := gcdp _ _; set c := (lead_coef _)^-1.
rewrite -!scalerAr -!scalerAl; apply/eqP; congr (_ *: _).
have gd : g %| \d_(repr f) by rewrite dvdp_gcdr.
have gn : g %| \n_(repr f) by rewrite dvdp_gcdl.
by rewrite divp_mulA // [RHS]mulrC divp_mulA // [\d_(repr f) * _]mulrC.
Qed.

Lemma numden_uniq f (n d : o) :
  d \is monic -> coprimep n d -> f = n%:F / d%:F ->
  (numerator f = n) * (denominator f = d).
Proof.
move=> dm cnd fE.
have dn0 : d != 0 by exact: monic_neq0.
have d'n0 := denominator_neq0 f.
have := numdenE f; rewrite {1}fE => /eqP; rewrite frac_eq // => /eqP E.
have d'd : denominator f %| d.
  have := dvdp_mull n (dvdpp (denominator f)); rewrite E.
  by rewrite Gauss_dvdpr // coprimep_sym numden_coprime.
have dd' : d %| denominator f.
  have := dvdp_mull (numerator f) (dvdpp d); rewrite -E.
  by rewrite Gauss_dvdpr // coprimep_sym.
have dE : denominator f = d.
  by apply/eqP; rewrite -eqp_monic ?denominator_monic // /eqp d'd dd'.
by split=> //; move: E; rewrite dE => /(mulIf dn0) ->.
Qed.

Lemma numerator_tofrac p : numerator p%:F = p.
Proof.
have [] // := @numden_uniq p%:F p 1 (monic1 _) (coprimep1 _).
by rewrite tofrac1 divr1.
Qed.

Lemma denominator_tofrac p : denominator p%:F = 1.
Proof.
have [] // := @numden_uniq p%:F p 1 (monic1 _) (coprimep1 _).
by rewrite tofrac1 divr1.
Qed.

Lemma denominator0 : denominator 0 = 1.
Proof. by rewrite -tofrac0 denominator_tofrac. Qed.

Lemma numerator_eq0 f : (numerator f == 0) = (f == 0).
Proof.
rewrite [in RHS](numdenE f) mulf_eq0 invr_eq0 !tofrac_eq0.
by rewrite (negPf (denominator_neq0 f)) orbF.
Qed.

(** The binary gcd and lcm. *)

Lemma gcd_eqp p q : gcd p q %= gcdp p q.
Proof. exact: scale_lead_eqp. Qed.

Lemma gcd_eq0 p q : (gcd p q == 0) = (p == 0) && (q == 0).
Proof. by rewrite -gcdp_eq0 (eqp_eq0 (gcd_eqp p q)). Qed.

Lemma gcd_monic p q : (p != 0) || (q != 0) -> gcd p q \is monic.
Proof. by rewrite -negb_and -gcdp_eq0; apply: scale_lead_monic. Qed.

Lemma dvdp_gcd_sage m p q : (m %| gcd p q) = (m %| p) && (m %| q).
Proof. by rewrite (eqp_dvdr _ (gcd_eqp p q)) dvdp_gcd. Qed.

Lemma lcm_eqp p q : lcm p q %= (p * q) %/ gcd p q.
Proof. exact: scale_lead_eqp. Qed.

Lemma lcm_divl p q : q != 0 -> (p * q) %/ gcd p q = p * (q %/ gcd p q).
Proof.
move=> qn0; rewrite divp_mulA //.
by have := dvdpp (gcd p q); rewrite dvdp_gcd_sage => /andP[].
Qed.

Lemma lcm_neq0 p q : p != 0 -> q != 0 -> lcm p q != 0.
Proof.
move=> pn0 qn0; rewrite (eqp_eq0 (lcm_eqp p q)) lcm_divl // mulf_neq0 //.
rewrite dvdp_div_eq0 //.
by have := dvdpp (gcd p q); rewrite dvdp_gcd_sage => /andP[].
Qed.

Lemma lcm_monic p q : p != 0 -> q != 0 -> lcm p q \is monic.
Proof.
move=> pn0 qn0; apply: scale_lead_monic.
by rewrite -(eqp_eq0 (lcm_eqp p q)) lcm_neq0.
Qed.

Lemma dvdp_lcm_sage m p q : p != 0 -> q != 0 ->
  (lcm p q %| m) = (p %| m) && (q %| m).
Proof.
move=> pn0 qn0; rewrite (eqp_dvdl _ (lcm_eqp p q)).
have gn0 : gcd p q != 0 by rewrite gcd_eq0 negb_and pn0.
have /andP[gp gq] : (gcd p q %| p) && (gcd p q %| q).
  by rewrite -dvdp_gcd_sage dvdpp.
apply/idP/andP => [lm|[pm qm]].
  split; apply: dvdp_trans lm.
    by rewrite lcm_divl // dvdp_mulIl.
  by rewrite -divp_mulAC // dvdp_mull.
rewrite -(dvdp_mul2r ((p * q) %/ gcd p q) m gn0) (divpK (dvdp_mulr q gp)).
have [[u v] /= uvE] := Bezoutp p q.
have gE : gcd p q %= u * p + v * q.
  by apply: eqp_trans (gcd_eqp p q) _; rewrite eqp_sym.
rewrite (eqp_dvdr _ (eqp_mull m gE)).
have h1 : p * q %| m * (u * p).
  by rewrite mulrCA dvdp_mull // [p * q]mulrC dvdp_mul.
have h2 : p * q %| m * (v * q) by rewrite mulrCA dvdp_mull // dvdp_mul.
by rewrite mulrDr dvdp_add.
Qed.

(** The folds over lists. *)

Lemma lcm_foldl (s t : seq o) (a : o) :
  monic_lcm_of a t -> all (fun p => p \is monic) s ->
  monic_lcm_of (foldl (fun g vi => lcm vi g) a s) (t ++ s).
Proof.
elim: s t a => [|x s IH] t a; first by rewrite cats0.
move=> [am adv alst] /= /andP[xm sm]; rewrite -cat_rcons; apply: IH => //.
have xn0 := monic_neq0 xm; have an0 := monic_neq0 am.
split=> [|p|m mdv]; first exact: lcm_monic.
  rewrite mem_rcons inE => /orP[/eqP->|pt].
    by have := dvdpp (lcm x a); rewrite dvdp_lcm_sage // => /andP[].
  apply: dvdp_trans (adv p pt) _.
  by have := dvdpp (lcm x a); rewrite dvdp_lcm_sage // => /andP[].
rewrite dvdp_lcm_sage // mdv ?mem_rcons ?mem_head //=.
by apply: alst => p pt; apply: mdv; rewrite mem_rcons inE pt orbT.
Qed.

Lemma lcm_list_spec (s : seq o) :
  all (fun p => p \is monic) s -> monic_lcm_of (lcm_list s) s.
Proof.
move=> sm; rewrite -[X in monic_lcm_of _ X]cat0s; apply: lcm_foldl => //.
by split=> [|//|m _]; rewrite ?monic1 ?dvd1p.
Qed.

Lemma gcd_foldl (s t : seq o) (a : o) :
  {in t, forall p, a %| p} -> (forall m, {in t, forall p, m %| p} -> m %| a) ->
  let g := foldl (fun g vi => gcd vi g) a s in
  {in t ++ s, forall p, g %| p} /\ (forall m, {in t ++ s, forall p, m %| p} -> m %| g).
Proof.
elim: s t a => [|x s IH] t a adv agst /=; first by rewrite cats0.
rewrite -cat_rcons; apply: IH => [p|m mdv].
  have /andP[gx ga] : (gcd x a %| x) && (gcd x a %| a) by rewrite -dvdp_gcd_sage.
  rewrite mem_rcons inE => /orP[/eqP-> //|pt].
  exact: dvdp_trans ga (adv p pt).
rewrite dvdp_gcd_sage mdv ?mem_rcons ?mem_head //=.
by apply: agst => p pt; apply: mdv; rewrite mem_rcons inE pt orbT.
Qed.

Lemma gcd_foldl_monic (s : seq o) (a : o) :
  (a == 0) || (a \is monic) ->
  let g := foldl (fun g vi => gcd vi g) a s in (g == 0) || (g \is monic).
Proof.
elim: s a => [|x s IH] a //= _; apply: IH.
have [nz|] := boolP ((x != 0) || (a != 0)); first by rewrite gcd_monic ?orbT.
by rewrite negb_or !negbK -gcd_eq0 => ->.
Qed.

Lemma gcd_list_spec (s : seq o) :
  has (fun p => p != 0) s -> monic_gcd_of (gcd_list s) s.
Proof.
move=> /hasP[p ps pn0].
have [] := @gcd_foldl s [::] 0 => [//|m _|gdv ggst]; first exact: dvdp0.
split=> //.
have := @gcd_foldl_monic s 0; rewrite eqxx => /(_ isT) /orP[/eqP g0|//].
by have := gdv p ps; rewrite -/(gcd_list s) [gcd_list s]g0 dvd0p (negPf pn0).
Qed.

Lemma pymax_foldl (s : seq int) (x : int) :
  let d := foldl (fun (a y : int) => if (a < y)%R then y else a) x s in
  d \in x :: s /\ {in x :: s, forall e, (e <= d)%R}.
Proof.
elim: s x => [|y s IH] x /=.
  by split=> [|e]; rewrite ?mem_head // inE => /eqP->.
have [] := IH (if (x < y)%R then y else x) => din dmax; split.
  by move: din; rewrite !inE; case: ifP => _ /orP[->|->]; rewrite ?orbT.
move=> e; rewrite !inE => /or3P[/eqP->|/eqP->|es]; last first.
- by apply: dmax; rewrite inE es orbT.
- have := dmax _ (mem_head _ _); case: ltP => // yx.
  exact: le_trans.
- have := dmax _ (mem_head _ _); case: ltP => // /ltW xy.
  exact: le_trans.
Qed.

Lemma pymax_spec (s : seq int) :
  if s is _ :: _ then exists2 d, pymax s = Return d & maximum_of d s
  else pymax s = Raise (ValueError "max() arg is an empty sequence"%string).
Proof.
case: s => [//|x s]; exists (foldl (fun (a y : int) => if (a < y)%R then y else a) x s) => //.
exact: pymax_foldl.
Qed.

Lemma filter_nonzero_nil (s : seq K) :
  ([seq e <- s | e != 0] == [::]) = all (fun c => c == 0) s.
Proof. by elim: s => [|x s IH] //=; case: (x == 0). Qed.

(** ** C9: the ideal of the maximal order generated by [gens] *)

Lemma rational_ideal_unpacked (args : ideal_args FunctionFieldIdeal_rational) :
  let gens := unpack_gens (fun J => [:: ideal_rational_gen J]) args in
  if all (fun c => c == 0) gens then
    MaximalOrder_rational_ideal args = Return (mkFunctionFieldIdeal_rational 0)
  else
    exists d g : o,
      [/\ MaximalOrder_rational_ideal args
            = Return (mkFunctionFieldIdeal_rational (g%:F / d%:F)),
          monic_lcm_of d [seq denominator c | c <- gens]
        & monic_gcd_of g [seq numerator (d%:F * c) | c <- gens & c != 0]].
Proof.
rewrite /MaximalOrder_rational_ideal.
move: (unpack_gens _ _) => gens /=.
rewrite size_eq0 filter_nonzero_nil; case: (boolP (all _ gens)) => [//|nz].
set gens' := [seq e <- gens | e != 0].
set d := lcm_list _.
have dens_monic : all (fun p => p \is monic) [seq denominator c | c <- gens'].
  by apply/allP => p /mapP[c _ ->]; apply: denominator_monic.
have [dm ddv dlst] := lcm_list_spec dens_monic; rewrite -/d in dm ddv dlst.
have dn0 := monic_neq0 dm.
rewrite (to_monic_id dm) /=.
set g := gcd_list _.
have nums_nz : has (fun p => p != 0) [seq numerator (d%:F * c) | c <- gens'].
  case/allPn: (nz) => c cin cn0; apply/hasP; exists (numerator (d%:F * c)).
    by apply: map_f; rewrite mem_filter cn0.
  by rewrite numerator_eq0 mulf_neq0 ?tofrac_eq0.
have [gm gdv ggst] := gcd_list_spec nums_nz; rewrite -/g in gm gdv ggst.
rewrite (to_monic_id gm) /=; exists d, g; split=> //.
split=> // [p /mapP[c cgens ->]|m mdv].
  have [->|cn0] := eqVneq c 0; first by rewrite denominator0 dvd1p.
  by apply: ddv; apply: map_f; rewrite mem_filter cn0.
apply: dlst => p /mapP[c]; rewrite mem_filter => /andP[_ cgens] ->.
by apply: mdv; apply: map_f.
Qed.

(** C9.  For the maximal order of a rational function field and field
    elements g1, ..., gm: [ideal(g1, ..., gm)] and [ideal([g1, ..., gm])]
    return (never raising) the ideal generated by g1, ..., gm, and [ideal(J)]
    for an ideal J returns the ideal generated by the generator of J.  With at
    least one nonzero generator this is the principal ideal of g/d, where d
    is the monic least common multiple of the denominators of the generators
    and g is the monic greatest common divisor of the numerators of d*c for
    the nonzero generators c; when every generator is zero, or none is
    given, it is the zero ideal. *)
Theorem MaximalOrder_rational_ideal_spec (gens : seq K) (J : FunctionFieldIdeal_rational) :
  [/\ is_ideal_generated_by gens (MaximalOrder_rational_ideal (Gens gens)),
      is_ideal_generated_by gens (MaximalOrder_rational_ideal (GensList gens))
    & is_ideal_generated_by [:: ideal_rational_gen J]
        (MaximalOrder_rational_ideal (GensIdeal J))].
Proof.
split; [have := rational_ideal_unpacked (Gens gens)
       | exact: (rational_ideal_unpacked (GensList gens))
       | exact: (rational_ideal_unpacked (GensIdeal J))].
by case: gens => [|g [|g' gens]].
Qed.

(** ** C10: the ideal of the maximal infinite order generated by [gens] *)

Lemma infinite_ideal_unpacked
    (args : ideal_args FunctionFieldIdealInfinite_rational) :
  let gens := unpack_gens (fun J => [:: ideal_infinite_rational_gen J]) args in
  if all (fun c => c == 0) gens then
    MaximalOrderInfinite_rational_ideal args
      = Return (mkFunctionFieldIdealInfinite_rational 0)
  else
    exists d : int,
      MaximalOrderInfinite_rational_ideal args
        = Return (mkFunctionFieldIdealInfinite_rational (K_gen ^ d))
      /\ maximum_of d
           [seq degree (numerator g) - degree (denominator g) | g <- gens & g != 0].
Proof.
rewrite /MaximalOrderInfinite_rational_ideal.
move: (unpack_gens _ _) => gens /=.
rewrite -filter_nonzero_nil.
have := pymax_spec [seq degree (numerator g) - degree (denominator g) | g <- gens & g != 0].
case: [seq g <- gens | g != 0] => [|g s]; first by [].
by case=> d E dmax; exists d; rewrite E.
Qed.

(** C10.  For the maximal infinite order of a rational function field and
    field elements g1, ..., gm: [ideal(g1, ..., gm)] and
    [ideal([g1, ..., gm])] return the ideal generated by g1, ..., gm, and
    [ideal(J)] for an ideal J returns the ideal generated by the generator of
    J: the principal ideal of x^d, where x is the generator of the field and
    d is the maximum, over the nonzero generators, of the degree of the
    numerator minus the degree of the denominator; when all generators are
    zero it is the zero ideal. *)
Theorem MaximalOrderInfinite_rational_ideal_spec (gens : seq K)
    (J : FunctionFieldIdealInfinite_rational) :
  [/\ is_infinite_ideal_generated_by gens (MaximalOrderInfinite_rational_ideal (Gens gens)),
      is_infinite_ideal_generated_by gens
        (MaximalOrderInfinite_rational_ideal (GensList gens))
    & is_infinite_ideal_generated_by [:: ideal_infinite_rational_gen J]
        (MaximalOrderInfinite_rational_ideal (GensIdeal J))].
Proof.
split; [have := infinite_ideal_unpacked (Gens gens)
       | exact: (infinite_ideal_unpacked (GensList gens))
       | exact: (infinite_ideal_unpacked (GensIdeal J))].
by case: gens => [|g [|g' gens]].
Qed.

End RationalFunctionField.

(* ========================================================================== *)
(** * Part B.  Differentials (differential.py)                                *)
(* ========================================================================== *)

(** The comparison operators that [richcmp] dispatches on. *)
Variant richcmp_op : Type := op_LT | op_LE | op_EQ | op_NE | op_GT | op_GE.

Section Differentials.

(** The function field: [field(f)] is the identity on its elements. *)
Variable L : fieldType.

(** [field.derivation()]: the derivation with respect to the generator x of
    the base rational function field. *)
Variable derivation : L -> L.

(** The ordering comparisons of field elements ([<], [<=], [>], [>=]). *)
Variable element_cmp : richcmp_op -> L -> L -> bool.

(** [richcmp(x, y, op)] on field elements. *)
Definition richcmp (x y : L) (op : richcmp_op) : bool :=
  match op with
  | op_EQ => x == y
  | op_NE => x != y
  | _ => element_cmp op x y
  end.

(** [FunctionFieldDifferential_global]: the differential [_f dx]. *)
Record FunctionFieldDifferential_global : Type :=
  mkFunctionFieldDifferential_global { _f : L }.

(** [__init__(self, field, f, t=None)]:
    [if t is not None: der = field.derivation(); f *= der(t)]. *)
Definition FunctionFieldDifferential_global_init (f : L) (t : option L) :
    FunctionFieldDifferential_global :=
  let f := if t is Some t then f * derivation t else f in
  mkFunctionFieldDifferential_global f.

(** [differential(field, f, t=None)]. *)
Definition differential (f : L) (t : option L) : FunctionFieldDifferential_global :=
  FunctionFieldDifferential_global_init f t.

(** [_richcmp_(self, other, op)]. *)
Definition _richcmp_ (self other : FunctionFieldDifferential_global) (op : richcmp_op) : bool :=
  richcmp (_f self) (_f other) op.

(** [_add_], [_neg_] and [_rmul_]. *)
Definition _add_ (self other : FunctionFieldDifferential_global) :=
  differential (_f self + _f other) None.

Definition _neg_ (self : FunctionFieldDifferential_global) :=
  differential (- _f self) None.

Definition _rmul_ (self : FunctionFieldDifferential_global) (f : L) :=
  differential (f * _f self) None.

(** C7.  For all field elements f and t, the differential constructed by
    [differential(field, f, t)] has normalized coefficient f * der(t): it is
    the differential with coefficient f * der(t) and no t argument; and two
    differentials compare equal exactly when their normalized coefficients
    are equal. *)
Theorem differential_normalized (f t : L) (w1 w2 : FunctionFieldDifferential_global) :
  [/\ _f (differential f (Some t)) = f * derivation t,
      differential f (Some t) = differential (f * derivation t) None
    & _richcmp_ w1 w2 op_EQ = (_f w1 == _f w2)].
Proof. by []. Qed.

End Differentials.

(* ========================================================================== *)
(** * Part C.  Orders given by a basis                                        *)
(* ========================================================================== *)

Section BasisOrders.

(** The function field [field = basis[0].parent()] and [field.degree()]. *)
Variable L : fieldType.
Variable field_degree : nat.

(** Modules over the maximal order R of the base field, inside the vector
    space V of [field.vector_space()]:
    [span gens] is [V.span([to(b) for b in gens], base_ring=R)],
    [rank M] is [M.rank()] and [contains M a] is [to(a) in M]. *)
Variable module : Type.
Variable span : seq L -> module.
Variable rank : module -> nat.
Variable contains : module -> L -> bool.

(** ["%s" % basis]. *)
Variable format_basis : seq L -> String.string.

Record FunctionFieldOrder_basis : Type := mkFunctionFieldOrder_basis {
  FunctionFieldOrder_basis__basis : seq L;
  FunctionFieldOrder_basis__module : module
}.

(** [all(to(a*b) in self._module for a in basis for b in basis)]. *)
Definition closed_under_multiplication (M : module) (basis : seq L) : bool :=
  all (contains M) [seq a * b | a <- basis, b <- basis].

(** [FunctionFieldOrder_basis.__init__(self, basis, check=True)]. *)
Definition FunctionFieldOrder_basis_init (basis : seq L) (check : bool) :
    result FunctionFieldOrder_basis :=
  if size basis == 0%N then Raise (ValueError "basis must have positive length"%string)
  else if size basis != field_degree then
    Raise (ValueError "length of basis must equal degree of field"%string)
  else
    let self := mkFunctionFieldOrder_basis basis (span basis) in
    let _module := FunctionFieldOrder_basis__module self in
    if check then
      if rank _module != field_degree then
        Raise (ValueError (String.append "Basis "
                 (String.append (format_basis basis) " is not linearly independent"))%string)
      else if ~~ contains _module 1 then
        Raise (ValueError (String.append
                 "The identity element must be in the module spanned by basis "
                 (format_basis basis))%string)
      else if ~~ closed_under_multiplication _module basis then
        Raise (ValueError (String.append "The module generated by basis "
                 (String.append (format_basis basis)
                    " must be closed under multiplication"))%string)
      else Return self
    else Return self.

(** [FunctionFieldOrder_basis.basis(self)]. *)
Definition FunctionFieldOrder_basis_basis (self : FunctionFieldOrder_basis) : pyobject L :=
  PyTuple (FunctionFieldOrder_basis__basis self).

(** *** [FunctionFieldOrderInfinite_basis] *)

(** The vector spaces over the base field that the infinite order uses:
    [span_of_basis basis] is [V.span_of_basis([to(v) for v in basis])], which
    raises when the vectors are linearly dependent, [dimension W] is
    [W.dimension()], the rank of [FreeModule(R, W.dimension())], and
    [integral_coordinates W a] is [W.coordinate_vector(to(a)) in M]. *)
Variable ambient : Type.
Variable span_of_basis : seq L -> result ambient.
Variable dimension : ambient -> nat.
Variable integral_coordinates : ambient -> L -> result bool.

Record FunctionFieldOrderInfinite_basis : Type := mkFunctionFieldOrderInfinite_basis {
  FunctionFieldOrderInfinite_basis__basis : seq L;
  FunctionFieldOrderInfinite_basis__ambient_space : ambient
}.

(** [all(...)] over tests that may raise: it stops at the first false one. *)
Fixpoint all_results (l : seq (result bool)) : result bool :=
  if l is r :: l' then (do b <- r; if b then all_results l' else Return false)
  else Return true.

(** [FunctionFieldOrderInfinite_basis.__init__(self, basis, check=True)]. *)
Definition FunctionFieldOrderInfinite_basis_init (basis : seq L) (check : bool) :
    result FunctionFieldOrderInfinite_basis :=
  if size basis == 0%N then Raise (ValueError "basis must have positive length"%string)
  else if size basis != field_degree then
    Raise (ValueError "length of basis must equal degree of field"%string)
  else
    do W <- span_of_basis basis;
    let self := mkFunctionFieldOrderInfinite_basis basis W in
    if check then
      if dimension W != field_degree then
        Raise (ValueError (String.append "Basis "
                 (String.append (format_basis basis) " is not linearly independent"))%string)
      else
        do one_in <- integral_coordinates W 1;
        if ~~ one_in then
          Raise (ValueError (String.append
                   "The identity element must be in the module spanned by basis "
                   (format_basis basis))%string)
        else
          do closed <- all_results [seq integral_coordinates W (a * b) | a <- basis, b <- basis];
          if ~~ closed then
            Raise (ValueError (String.append "The module generated by basis "
                     (String.append (format_basis basis)
                        " must be closed under multiplication"))%string)
          else Return self
    else Return self.

(** [FunctionFieldOrderInfinite_basis.basis(self)]. *)
Definition FunctionFieldOrderInfinite_basis_basis (self : FunctionFieldOrderInfinite_basis) :
    pyobject L :=
  PyTuple (FunctionFieldOrderInfinite_basis__basis self).

(** The words of the specification: some product [basis[i] * basis[j]] lies
    outside the module spanned by the basis. *)
Definition some_product_outside (basis : seq L) : bool :=
  [exists i : 'I_(size basis), exists j : 'I_(size basis),
     ~~ contains (span basis) (nth 0 basis i * nth 0 basis j)].

Lemma closed_under_multiplicationE (M : module) (basis : seq L) :
  closed_under_multiplication M basis =
  [forall i : 'I_(size basis), forall j : 'I_(size basis),
     contains M (nth 0 basis i * nth 0 basis j)].
Proof.
apply/allP/'forall_'forall_idP => [cl i j|cl c /allpairsP[[a b] /= [ain bin ->]]].
  by apply: cl; apply: allpairs_f; apply: mem_nth.
have ia := index_mem a basis; have ib := index_mem b basis.
rewrite ain in ia; rewrite bin in ib.
by have := cl (Ordinal ia) (Ordinal ib); rewrite /= !nth_index.
Qed.

Lemma some_product_outsideE (basis : seq L) :
  some_product_outside basis = ~~ closed_under_multiplication (span basis) basis.
Proof.
rewrite closed_under_multiplicationE negb_forall.
by apply: eq_existsb => i; rewrite negb_forall.
Qed.

(** C2.  Constructing a basis-given order with check=True raises when the
    basis is empty, when its length differs from the field degree, when the
    module it spans has rank different from the field degree, when 1 is not
    in that module, or when some product basis[i]*basis[j] lies outside it;
    when none of these hold, construction succeeds and the basis of the
    order is the given basis. *)
Theorem FunctionFieldOrder_basis_init_spec (basis : seq L) :
  if [|| size basis == 0%N, size basis != field_degree,
         rank (span basis) != field_degree, ~~ contains (span basis) 1
       | some_product_outside basis]
  then is_true (raises (FunctionFieldOrder_basis_init basis true))
  else exists2 O, FunctionFieldOrder_basis_init basis true = Return O
                & FunctionFieldOrder_basis_basis O = PyTuple basis.
Proof.
rewrite /FunctionFieldOrder_basis_init /=.
case: (size basis == 0%N) => //=; case: (size basis != field_degree) => //=.
case: (rank _ != field_degree) => //=; case: (contains _ 1) => //=.
by rewrite some_product_outsideE; case: closed_under_multiplication => //=; eexists.
Qed.

End BasisOrders.

(* ========================================================================== *)
(** * Part D.  Maximal orders of global function fields                       *)
(* ========================================================================== *)

(** [range(n)]. *)
Definition range (n : nat) : seq nat := iota 0 n.

(** [t[i][j]] for a list of lists. *)
Definition getitem2 {T : Type} (t : seq (seq T)) (i j : nat) : option T :=
  if getitem t i is Some row then getitem row j else None.

Section GlobalMaximalOrder.

(** The constant field, the polynomial ring [R._ring] of the base maximal
    order and the base rational function field. *)
Variable k : finFieldType.

Local Notation o := {poly k}.
Local Notation K := {fraction {poly k}}.

(** The function field [F = self.function_field()] and [n = F.degree()],
    which is also the length of the basis of the maximal order. *)
Variable F : fieldType.
Variable n : nat.

(** What the class takes from the function field, from Sage's linear algebra
    and from the ideal classes:
    - [module_coordinate_vector basis e] is
      [V.span_of_basis([to(b) for b in basis]).coordinate_vector(to(e))];
    - [trace e] is [e.trace()] and [minimal_polynomial e] is
      [e.minimal_polynomial()];
    - [hermite_form_euclidean] is the in-place Hermite form with monic pivots;
    - [power_coordinate_vector gen d g] is the coordinate vector of [g] in
      [V.span_of_basis([to(gen ** i) for i in range(d)])];
    - [factor p] is [p.factor()], the list of (prime factor, multiplicity). *)
Variable module_coordinate_vector : n.-tuple F -> F -> 'rV[K]_n.
Variable trace : F -> K.
Variable minimal_polynomial : F -> {poly K}.
Variable hermite_form_euclidean : seq 'rV[o]_n -> seq 'rV[o]_n.
Variable power_coordinate_vector : F -> nat -> F -> seq K.
Variable factor : o -> seq (o * nat).

(** ** Vectors and matrices as Sage handles them *)

(** [list(v)] and [vector(l)] for vectors of length n. *)
Definition vector_list {R : Type} (v : 'rV[R]_n) : seq R := [seq v 0 i | i <- enum 'I_n].

Definition vector {R : nzRingType} (l : seq R) : 'rV[R]_n := \row_i nth 0 l i.

(** [v.denominator()] for a vector over K:
    [d = 1; for y in v.list(): d = d.lcm(y.denominator())]. *)
Definition vector_denominator (v : 'rV[K]_n) : o :=
  foldl (fun d y => lcm d (denominator y)) 1 (vector_list v).

(** [mat.reverse_rows_and_columns()], on the list of rows. *)
Definition reverse_vector {R : Type} (v : 'rV[R]_n) : 'rV[R]_n := \row_j v 0 (rev_ord j).

Definition reverse_rows_and_columns {R : Type} (mat : seq 'rV[R]_n) : seq 'rV[R]_n :=
  rev [seq reverse_vector v | v <- mat].

(** [i = 0; while i < mat.nrows() and mat.row(i).is_zero(): i += 1; mat[i:]]. *)
Definition remove_zero_rows (mat : seq 'rV[o]_n) : seq 'rV[o]_n :=
  drop (find (fun v => v != 0) mat) mat.

(** ** Ideals of the maximal order *)

(** [FunctionFieldIdeal_global(ring, hnf, denominator)]. *)
Record FunctionFieldIdeal_global : Type := mkFunctionFieldIdeal_global {
  _hnf : seq 'rV[o]_n;
  _denominator : o
}.

(** [FunctionFieldIdeal_global.__invert__], the inverse fractional ideal. *)
Variable ideal_invert : FunctionFieldIdeal_global -> result FunctionFieldIdeal_global.

(** The loop of [_ideal_from_vectors_and_denominator] that looks for a common
    divisor of d and all entries:
    [for c in l: g = g.gcd(c); if g.is_one(): raise AssertionError].
    [None] stands for the raised AssertionError. *)
Fixpoint common_divisor (g : o) (l : seq o) : option o :=
  if l is c :: l' then
    let g := gcd g c in
    if g == 1 then None else common_divisor g l'
  else Some g.

(** [_ideal_from_vectors_and_denominator(self, vecs, d=1, check=True)]. *)
Definition _ideal_from_vectors_and_denominator
    (vecs : seq 'rV[o]_n) (d : o) (check : bool) : FunctionFieldIdeal_global :=
  let: (mat, d) :=
    if check && (d != 1) then
      match common_divisor d (flatten [seq vector_list v | v <- vecs]) with
      | Some g => ([seq map_mx (fun c => c %/ g) v | v <- vecs], d %/ g)
      | None => (vecs, d)
      end
    else (vecs, d) in
  let mat := reverse_rows_and_columns mat in
  let mat := hermite_form_euclidean mat in
  let mat := reverse_rows_and_columns mat in
  let hnf := remove_zero_rows mat in
  mkFunctionFieldIdeal_global hnf d.

(** [_ideal_from_vectors(self, vecs)]. *)
Definition _ideal_from_vectors (vecs : seq 'rV[K]_n) : FunctionFieldIdeal_global :=
  let d := lcm_list [seq vector_denominator v | v <- vecs] in
  let vecs := [seq map_mx (fun c => numerator (d%:F * c)) v | v <- vecs] in
  _ideal_from_vectors_and_denominator vecs d false.

(** ** The maximal order *)

(** What [__init__] stores when a Kummer generator is found. *)
Record kummer_data : Type := mkKummer {
  _kummer_gen : F;
  _kummer_gen_vec_pow : seq 'rV[o]_n;
  _kummer_polynomial : {poly K};
  _kummer_places : seq o
}.

Record FunctionFieldMaximalOrder_global : Type := mkFunctionFieldMaximalOrder_global {
  _basis : n.-tuple F;
  _mtable : seq (seq 'rV[o]_n);
  _kummer : option kummer_data
}.

(** [coordinate_vector(self, e)] and [_coordinate_vector(self, e)], for the
    order with the given basis. *)
Definition coordinate_vector (basis : n.-tuple F) (e : F) : 'rV[K]_n :=
  module_coordinate_vector basis e.

Definition _coordinate_vector (basis : n.-tuple F) (e : F) : 'rV[o]_n :=
  map_mx (@numerator k) (module_coordinate_vector basis e).

(** The multiplication table built by [__init__]:
    [for i in range(n): row = []; for j in range(n):
       row.append(self._coordinate_vector(basis[i] * basis[j]))]. *)
Definition build_mtable (basis : n.-tuple F) : seq (seq 'rV[o]_n) :=
  [seq [seq _coordinate_vector basis (nth 0 basis i * nth 0 basis j) | j <- range n]
  | i <- range n].

(** [mul_vecs(f, g)] of [__init__], over a multiplication table. *)
Definition mul_vecs (mtable : seq (seq 'rV[o]_n)) (f g : 'rV[o]_n) : 'rV[o]_n :=
  foldl (fun s i =>
           if nth 0 (vector_list f) i == 0 then s
           else foldl (fun s j =>
                         if nth 0 (vector_list g) j == 0 then s
                         else s + (nth 0 (vector_list f) i * nth 0 (vector_list g) j)
                                    *: nth 0 (nth [::] mtable i) j)
                      s (range n))
        0 (range n).

(** The search for a generator of the field among [basis[1:]]:
    [for gen in basis[1:]: phi = gen.minimal_polynomial();
       if phi.degree() == n: break].
    The result is the last binding of [(gen, phi)], if any. *)
Fixpoint find_kummer_gen (last : option (F * {poly K})) (l : seq F) : option (F * {poly K}) :=
  if l is gen :: l' then
    let phi := minimal_polynomial gen in
    if degree phi == n%:Z then Some (gen, phi) else find_kummer_gen (Some (gen, phi)) l'
  else last.

(** [gen_vec_pow = [g]; for i in range(n): g = mul_vecs(g, gen_vec);
    gen_vec_pow.append(g)]. *)
Definition build_gen_vec_pow (mtable : seq (seq 'rV[o]_n)) (gen_vec : 'rV[o]_n) : seq 'rV[o]_n :=
  let g := vector (1 :: nseq n.-1 0) in
  (foldl (fun st _ => let g := mul_vecs mtable st.1 gen_vec in (g, rcons st.2 g))
         (g, [:: g]) (range n)).2.

(** The places where the powers of [gen] are not an integral basis:
    [for g in basis: for c in W.coordinate_vector(to(g)):
       if not c.is_zero(): supp += [f for f,_ in c.denominator().factor()]]. *)
Definition build_kummer_places (basis : n.-tuple F) (gen : F) (d : nat) : seq o :=
  undup (flatten [seq flatten [seq [seq fe.1 | fe <- factor (denominator c)]
                              | c <- power_coordinate_vector gen d g & c != 0]
                 | g <- basis]).

(** [FunctionFieldMaximalOrder_global.__init__(self, field, basis)]. *)
Definition FunctionFieldMaximalOrder_global_init (basis : n.-tuple F) :
    result FunctionFieldMaximalOrder_global :=
  let mtable := build_mtable basis in
  match find_kummer_gen None (behead basis) with
  | None => Raise (NameError "local variable 'phi' referenced before assignment"%string)
  | Some (gen, phi) =>
    if degree phi == n%:Z then
      let gen_vec := _coordinate_vector basis gen in
      let gen_vec_pow := build_gen_vec_pow mtable gen_vec in
      let supp := build_kummer_places basis gen (size phi).-1 in
      Return (mkFunctionFieldMaximalOrder_global basis mtable
                (Some (mkKummer gen gen_vec_pow phi supp)))
    else Return (mkFunctionFieldMaximalOrder_global basis mtable None)
  end.

(** [basis(self)]. *)
Definition FunctionFieldMaximalOrder_global_basis (self : FunctionFieldMaximalOrder_global) :
    pyobject F :=
  PyTuple (_basis self).

(** ** Different and codifferent *)

(** [_codifferent_matrix(self)]:
    [rows = []; for u in self.basis(): row = [];
       for v in self.basis(): row.append((u*v).trace()); rows.append(row)]
    and [T = matrix(rows)]. *)
Definition _codifferent_matrix (self : FunctionFieldMaximalOrder_global) : 'M[K]_n :=
  let rows := [seq [seq trace (u * v) | v <- _basis self] | u <- _basis self] in
  \matrix_(i, j) nth 0 (nth [::] rows i) j.

(** [M.columns()]. *)
Definition columns {R : Type} (M : 'M[R]_n) : seq 'rV[R]_n :=
  [seq (col j M)^T | j <- enum 'I_n].

(** [codifferent(self)]; [T.inverse()] raises ZeroDivisionError on a
    singular matrix. *)
Definition codifferent (self : FunctionFieldMaximalOrder_global) :
    result FunctionFieldIdeal_global :=
  let T := _codifferent_matrix self in
  do Tinv <- (if T \in unitmx then Return (invmx T) else Raise ZeroDivisionError);
  Return (_ideal_from_vectors (columns Tinv)).

(** [different(self)]: [~self.codifferent()]. *)
Definition different (self : FunctionFieldMaximalOrder_global) :
    result FunctionFieldIdeal_global :=
  do I <- codifferent self; ideal_invert I.

(** ** The module of an ideal *)

(** The combinations of the rows of a matrix over the polynomial ring, with
    coefficients in the polynomial ring. *)
Inductive span_over (mat : seq 'rV[o]_n) : 'rV[o]_n -> Prop :=
| span_over_zero : span_over mat 0
| span_over_add (a : o) (r w : 'rV[o]_n) :
    r \in mat -> span_over mat w -> span_over mat (a *: r + w).

(** The module generated over the polynomial ring by vectors over the
    rational function field. *)
Inductive module_generated_by (vecs : seq 'rV[K]_n) : 'rV[K]_n -> Prop :=
| module_generated_zero : module_generated_by vecs 0
| module_generated_add (a : o) (u v : 'rV[K]_n) :
    u \in vecs -> module_generated_by vecs v ->
    module_generated_by vecs (a%:F *: u + v).

(** Modelled from the spec: the module of the ideal
    [FunctionFieldIdeal_global(ring, hnf, denominator)], a class that is not
    in order.py.  It is the ideal generated as a module by the rows of [hnf]
    divided by [denominator], over the polynomial ring (in the words of
    [_ideal_from_vectors_and_denominator]), in coordinates with respect to
    the basis of the order. *)
Definition ideal_module (I : FunctionFieldIdeal_global) (v : 'rV[K]_n) : Prop :=
  exists2 w, span_over (_hnf I) w & v = ((_denominator I)%:F)^-1 *: map_mx (fun c : o => c%:F) w.

(** [e in I], and [e in O] for the order O itself: the elements of O are
    those whose coordinates are polynomials. *)
Definition ideal_mem (self : FunctionFieldMaximalOrder_global) (I : FunctionFieldIdeal_global)
    (e : F) : Prop :=
  ideal_module I (coordinate_vector (_basis self) e).

Definition order_mem (self : FunctionFieldMaximalOrder_global) (e : F) : Prop :=
  forall j, denominator (coordinate_vector (_basis self) e 0 j) = 1.

(** Modelled from the spec: J is the inverse of I as a fractional ideal, the
    set of the elements of the function field that multiply I into the order. *)
Definition is_inverse_ideal (self : FunctionFieldMaximalOrder_global)
    (I J : FunctionFieldIdeal_global) : Prop :=
  forall a : F,
    ideal_mem self J a <-> (forall c : F, ideal_mem self I c -> order_mem self (a * c)).

(** What the code expects of the Hermite form, which keeps the module spanned
    by the rows, and of [__invert__]. *)
Definition hermite_form_spec : Prop :=
  forall mat w, span_over (hermite_form_euclidean mat) w <-> span_over mat w.

Definition ideal_invert_spec (self : FunctionFieldMaximalOrder_global) : Prop :=
  forall I J, ideal_invert I = Return J -> is_inverse_ideal self I J.

(** ** The p-radical *)

(** [o._residue_field_global(p)]: a finite field isomorphic to o/p, with the
    map lifting its elements to polynomials and the reduction map. *)
Record residue_field : Type := mkResidueField {
  Fp : finFieldType;
  fr_Fp : Fp -> o;
  to_Fp : o -> Fp
}.

Arguments fr_Fp : clear implicits.
Arguments to_Fp : clear implicits.

Variable _residue_field_global : o -> residue_field.

(** [matrix(E, mat).kernel().basis()]: a basis of the left kernel. *)
Variable kernel_basis : forall E : fieldType, 'M[E]_n -> seq 'rV[E]_n.

(** [exp = q; while exp <= F.degree(): exp = exp**q], with a bound on the
    number of tests of the loop condition; [None] when the bound is reached. *)
Fixpoint exp_loop (fuel : nat) (q deg exp : nat) : option nat :=
  if fuel is fuel'.+1 then
    if (exp <= deg)%N then exp_loop fuel' q deg (exp ^ q)%N else Some exp
  else None.

(** [p_radical(self, prime)]. *)
Definition p_radical (fuel : nat) (self : FunctionFieldMaximalOrder_global)
    (prime : FunctionFieldIdeal_rational k) : option (result FunctionFieldIdeal_global) :=
  let g := ideal_rational_gen prime in
  if ~~ ((denominator g == 1) && irreducibleb (numerator g)) then
    Some (Raise (ValueError "not a prime ideal"%string))
  else
    let p := numerator g in
    let rf := _residue_field_global p in
    let q := (#|k| ^ (size p).-1)%N in
    if exp_loop fuel q n q is Some exp then
      let mat : 'M[Fp rf]_n :=
        \matrix_(i, j) to_Fp rf (_coordinate_vector (_basis self)
                                   (tnth (_basis self) i ^+ exp) 0 j) in
      let ker := kernel_basis mat in
      let vecs : seq 'rV[o]_n :=
        [seq vector [seq if j == i then p else 0 | j <- range n] | i <- range n]
        ++ [seq map_mx (fr_Fp rf) b | b <- ker] in
      Some (Return (_ideal_from_vectors [seq map_mx (fun c => c%:F) v | v <- vecs]))
    else None.

(** ** The maximal infinite order *)

(** [V.span_of_basis([to(v) for v in basis])], which raises when the vectors
    are linearly dependent. *)
Variable infinite_module : Type.
Variable span_of_basis : seq F -> result infinite_module.

Record FunctionFieldMaximalOrderInfinite_global : Type :=
  mkFunctionFieldMaximalOrderInfinite_global {
    MaximalOrderInfinite_global__basis : seq F;
    MaximalOrderInfinite_global__module : infinite_module
  }.

(** [FunctionFieldMaximalOrderInfinite_global.__init__(self, field, basis)]. *)
Definition FunctionFieldMaximalOrderInfinite_global_init (basis : seq F) :
    result FunctionFieldMaximalOrderInfinite_global :=
  do M <- span_of_basis basis;
  Return (mkFunctionFieldMaximalOrderInfinite_global basis M).

(** [FunctionFieldMaximalOrderInfinite_global.basis(self)]. *)
Definition FunctionFieldMaximalOrderInfinite_global_basis
    (self : FunctionFieldMaximalOrderInfinite_global) : pyobject F :=
  PyTuple (MaximalOrderInfinite_global__basis self).

(** ** Properties of the maximal order *)

Lemma getitem_map_range (T : Type) (f : nat -> T) (m i : nat) :
  (i < m)%N -> getitem [seq f j | j <- range m] i = Some (f i).
Proof.
move=> lt_im; rewrite /getitem /range -map_drop drop_iota add0n.
by move: lt_im; rewrite -subn_gt0; case: (m - i)%N.
Qed.

Lemma getitem2_build_mtable (basis : n.-tuple F) (i j : 'I_n) :
  getitem2 (build_mtable basis) i j
    = Some (_coordinate_vector basis (nth 0 basis i * nth 0 basis j)).
Proof. by rewrite /getitem2 /build_mtable !getitem_map_range. Qed.

Lemma init_mtable (basis : n.-tuple F) :
  (do O <- FunctionFieldMaximalOrder_global_init basis; Return (_mtable O))
    = (do _ <- FunctionFieldMaximalOrder_global_init basis; Return (build_mtable basis)).
Proof.
rewrite /FunctionFieldMaximalOrder_global_init.
by case: find_kummer_gen => [[gen phi]|] //; case: ifP.
Qed.

(** C6.  For every global maximal order of degree n and all indices
    0 <= i, j < n, the multiplication table computed at construction has
    valid entries at [i][j] and at [j][i], and they are equal: both are the
    coordinate vector of basis[i] * basis[j]. *)
Theorem mtable_symmetric (basis : n.-tuple F) (i j : 'I_n) :
  let v := _coordinate_vector basis (nth 0 basis i * nth 0 basis j) in
  [/\ (do O <- FunctionFieldMaximalOrder_global_init basis; Return (_mtable O))
        = (do _ <- FunctionFieldMaximalOrder_global_init basis;
           Return (build_mtable basis)),
      getitem2 (build_mtable basis) i j = Some v
    & getitem2 (build_mtable basis) j i = Some v].
Proof.
split; first exact: init_mtable.
  exact: getitem2_build_mtable.
by rewrite getitem2_build_mtable mulrC.
Qed.

Lemma _codifferent_matrixE (self : FunctionFieldMaximalOrder_global) (i j : 'I_n) :
  _codifferent_matrix self i j = trace (tnth (_basis self) i * tnth (_basis self) j).
Proof.
rewrite /_codifferent_matrix mxE.
have sz : size (_basis self) = n by rewrite size_tuple.
rewrite (nth_map 0) ?sz // (nth_map 0) ?sz //.
by rewrite !(tnth_nth 0).
Qed.

(** The module spanned by the rows of a matrix. *)

Lemma span_over_sum (mat : seq 'rV[o]_n) (v w : 'rV[o]_n) :
  span_over mat v -> span_over mat w -> span_over mat (v + w).
Proof.
move=> sv sw; elim: sv => [|a r v' r_in _ IH]; first by rewrite add0r.
by rewrite -addrA; apply: span_over_add.
Qed.

Lemma span_over_row (mat : seq 'rV[o]_n) (r : 'rV[o]_n) : r \in mat -> span_over mat r.
Proof.
by move=> r_in; rewrite -[r]scale1r -[_ *: _]addr0; apply: span_over_add; last exact: span_over_zero.
Qed.

Lemma span_over_scale (mat : seq 'rV[o]_n) (b : o) (v : 'rV[o]_n) :
  span_over mat v -> span_over mat (b *: v).
Proof.
elim=> [|a r v' r_in _ IH]; first by rewrite scaler0; exact: span_over_zero.
by rewrite scalerDr scalerA; apply: span_over_add.
Qed.

Lemma span_over_incl (A B : seq 'rV[o]_n) :
  (forall r, r \in A -> span_over B r) -> forall w, span_over A w -> span_over B w.
Proof.
move=> AB w; elim=> [|a r v' r_in _ IH]; first exact: span_over_zero.
by apply: span_over_sum => //; apply: span_over_scale; apply: AB.
Qed.

Lemma span_over_remove_zero_rows (mat : seq 'rV[o]_n) (w : 'rV[o]_n) :
  span_over (remove_zero_rows mat) w <-> span_over mat w.
Proof.
split; apply: span_over_incl => r.
  by move/mem_drop; apply: span_over_row.
rewrite -{1}[mat](cat_take_drop (find (fun v => v != 0) mat)) mem_cat.
case/orP=> [|r_in]; last exact: span_over_row.
move/(nthP 0) => [i]; rewrite size_take_min leq_min => /andP[lt_i _].
rewrite (nth_take _ lt_i) => rE; have := before_find 0 lt_i.
by rewrite rE => /negbFE/eqP->; apply: span_over_zero.
Qed.

Lemma reverse_vectorK (R : Type) : involutive (@reverse_vector R).
Proof. by move=> v; apply/rowP => j; rewrite !mxE rev_ordK. Qed.

Lemma reverse_vector_linear (a : o) (r w : 'rV[o]_n) :
  reverse_vector (a *: r + w) = a *: reverse_vector r + reverse_vector w.
Proof. by apply/rowP => j; rewrite !mxE. Qed.

Lemma reverse_vector0 : reverse_vector (0 : 'rV[o]_n) = 0.
Proof. by apply/rowP => j; rewrite !mxE. Qed.

Lemma span_over_reverse (mat : seq 'rV[o]_n) (w : 'rV[o]_n) :
  span_over (reverse_rows_and_columns mat) w <-> span_over mat (reverse_vector w).
Proof.
have to_rev m' v : span_over m' v -> span_over (reverse_rows_and_columns m') (reverse_vector v).
  elim=> [|a r v' r_in _ IH]; first by rewrite reverse_vector0; exact: span_over_zero.
  rewrite reverse_vector_linear; apply: span_over_add => //.
  by rewrite /reverse_rows_and_columns mem_rev map_f.
split=> [|/to_rev]; last by rewrite reverse_vectorK.
elim=> [|a r v' r_in _ IH]; first by rewrite reverse_vector0; exact: span_over_zero.
rewrite reverse_vector_linear; apply: span_over_add => //.
move: r_in; rewrite /reverse_rows_and_columns mem_rev => /mapP[r' r'_in ->].
by rewrite reverse_vectorK.
Qed.

Lemma span_over_hnf (mat : seq 'rV[o]_n) (w : 'rV[o]_n) :
  hermite_form_spec ->
  span_over (remove_zero_rows (reverse_rows_and_columns
               (hermite_form_euclidean (reverse_rows_and_columns mat)))) w
    <-> span_over mat w.
Proof.
move=> herm; rewrite span_over_remove_zero_rows span_over_reverse herm span_over_reverse.
by rewrite reverse_vectorK.
Qed.

(** Clearing the denominators of vectors over the rational function field. *)

Lemma clear_denominator (d : o) (c : K) :
  denominator c %| d -> (numerator (d%:F * c))%:F = d%:F * c.
Proof.
move=> dv; have Dn0 : (denominator c)%:F != 0 :> K by rewrite tofrac_eq0 denominator_neq0.
have -> : d%:F * c = ((d %/ denominator c) * numerator c)%:F.
  rewrite -{1}(divpK dv) !tofracM -mulrA; congr (_ * _).
  by rewrite {2}[c]numdenE mulrCA (mulfV Dn0) mulr1.
by rewrite numerator_tofrac.
Qed.

Lemma vector_denominator_fold (a : o) (s : seq K) :
  a \is monic ->
  let d := foldl (fun d y => lcm d (denominator y)) a s in
  [/\ d \is monic, a %| d & {in s, forall y, denominator y %| d}].
Proof.
elim: s a => [|y s IH] a am /=; first by split.
have an0 := monic_neq0 am; have yn0 := denominator_neq0 y.
have [dm adv sdv] := IH _ (lcm_monic an0 yn0).
have /andP[al yl] : (a %| lcm a (denominator y)) && (denominator y %| lcm a (denominator y)).
  by rewrite -dvdp_lcm_sage.
split=> // [|z]; first exact: dvdp_trans al adv.
by rewrite inE => /orP[/eqP->|/sdv//]; apply: dvdp_trans yl adv.
Qed.

Lemma vector_denominator_spec (v : 'rV[K]_n) :
  vector_denominator v \is monic /\ forall j, denominator (v 0 j) %| vector_denominator v.
Proof.
have [dm _ dv] := vector_denominator_fold (vector_list v) (monic1 _).
split=> // j; apply: dv; apply/mapP; exists j => //.
by rewrite mem_enum.
Qed.

(** The ideal built by [_ideal_from_vectors] is the module generated by the
    vectors. *)
Lemma _ideal_from_vectors_module (vecs : seq 'rV[K]_n) (v : 'rV[K]_n) :
  hermite_form_spec ->
  ideal_module (_ideal_from_vectors vecs) v <-> module_generated_by vecs v.
Proof.
move=> herm; rewrite /ideal_module /_ideal_from_vectors.
rewrite /_ideal_from_vectors_and_denominator /=.
set d := lcm_list _; set clear := fun u : 'rV[K]_n => map_mx _ u.
have [dm ddv _] : monic_lcm_of d [seq vector_denominator u | u <- vecs].
  apply: lcm_list_spec; apply/allP => p /mapP[u _ ->].
  by have [] := vector_denominator_spec u.
have dF : d%:F != 0 :> K by rewrite tofrac_eq0 monic_neq0.
have clearE u : u \in vecs -> map_mx (fun c : o => c%:F) (clear u) = d%:F *: u.
  move=> u_in; apply/rowP => j; rewrite !mxE; apply: clear_denominator.
  have [_ /(_ j) dv] := vector_denominator_spec u.
  by apply: dvdp_trans dv _; apply: ddv; apply: map_f.
split=> [[w /(span_over_hnf _ _ herm) sw ->]|].
  elim: sw => [|a r w' /mapP[u u_in ->] _ IH].
    by rewrite map_mx0 scaler0; apply: module_generated_zero.
  have -> : map_mx (fun c : o => c%:F) (a *: clear u + w')
            = a%:F *: map_mx (fun c : o => c%:F) (clear u) + map_mx (fun c : o => c%:F) w'.
    by apply/rowP => j; rewrite !mxE tofracD tofracM.
  rewrite clearE // scalerDr !scalerA mulrAC (mulVf dF) mul1r.
  exact: module_generated_add.
elim=> [|a u v' u_in _ [w' sw' ->]].
  by exists 0; [apply/(span_over_hnf _ _ herm); apply: span_over_zero | rewrite map_mx0 scaler0].
exists (a *: clear u + w').
  apply/(span_over_hnf _ _ herm); apply: span_over_add; last by apply/(span_over_hnf _ _ herm).
  exact: map_f.
have -> : map_mx (fun c : o => c%:F) (a *: clear u + w')
          = a%:F *: map_mx (fun c : o => c%:F) (clear u) + map_mx (fun c : o => c%:F) w'.
  by apply/rowP => j; rewrite !mxE tofracD tofracM.
by rewrite clearE // scalerDr !scalerA mulrAC (mulVf dF) mul1r.
Qed.

(** C3.  For every global maximal order, T[i][j] = trace(basis[i]*basis[j]).
    When the Hermite form keeps the module spanned by the rows, the
    codifferent is the ideal whose module is generated by the columns of the
    inverse of T (and computing it raises ZeroDivisionError when T is
    singular).  When [__invert__] returns the inverse fractional ideal, the
    different is the inverse, as a fractional ideal, of the codifferent:
    whenever [different()] returns, [codifferent()] has returned an ideal C
    and the result is the set of the elements that multiply C into the
    order; it raises only what [codifferent()] or the inversion raises. *)
Theorem codifferent_different_spec (self : FunctionFieldMaximalOrder_global) :
  hermite_form_spec -> ideal_invert_spec self ->
  let T := _codifferent_matrix self in
  [/\ forall i j : 'I_n, T i j = trace (tnth (_basis self) i * tnth (_basis self) j),
      if T \in unitmx then
        exists2 C, codifferent self = Return C
                 & forall v, ideal_module C v <-> module_generated_by (columns (invmx T)) v
      else codifferent self = Raise ZeroDivisionError
    & match different self with
      | Return D => exists2 C, codifferent self = Return C & is_inverse_ideal self C D
      | Raise e => codifferent self = Raise e
                   \/ exists2 C, codifferent self = Return C & ideal_invert C = Raise e
      end].
Proof.
move=> herm inv; split; first exact: _codifferent_matrixE.
  rewrite /codifferent; case: (boolP (_codifferent_matrix self \in unitmx)) => [Tu|//].
  by eexists; first by []; move=> v; apply: _ideal_from_vectors_module.
rewrite /different; case: (codifferent self) => [C|e] /=; last by left.
case E: (ideal_invert C) => [D|e]; first by exists C => //; apply: inv.
by right; exists C.
Qed.
(** The loop that computes the exponent. *)

Lemma exp_loop_terminates (q deg fuel e : nat) :
  (1 < q)%N -> (1 < e)%N -> (deg < e + fuel)%N ->
  exists2 r, exp_loop fuel.+1 q deg e = Some r & (deg < r)%N.
Proof.
move=> q1; elim: fuel e => [|fuel IH] e e1.
  by rewrite addn0 => lt_deg; exists e; rewrite //= leqNgt lt_deg.
rewrite addnS ltnS => le_deg; rewrite [exp_loop _ _ _ _]/=.
case: leqP => [_|lt_deg]; last by exists e.
have lt_e : (e < e ^ q)%N by rewrite -{1}[e]expn1 ltn_exp2l.
apply: IH; first exact: ltn_trans e1 lt_e.
by apply: leq_ltn_trans le_deg _; rewrite ltn_add2r.
Qed.

Lemma exp_loop_more_fuel (q deg fuel fuel' e r : nat) :
  exp_loop fuel q deg e = Some r -> exp_loop (fuel + fuel') q deg e = Some r.
Proof.
elim: fuel e => [|fuel IH] e //=.
by case: leqP => // _; apply: IH.
Qed.

Lemma irreducibleb_size (p : o) : irreducibleb p -> (1 < size p)%N.
Proof. by case/andP. Qed.

(** C4.  [p_radical(prime)] raises ValueError exactly when the generator of
    [prime] is not a polynomial (denominator 1) with irreducible numerator;
    when it is, the loop computing the exponent terminates and [p_radical]
    returns an ideal. *)
Theorem p_radical_spec (self : FunctionFieldMaximalOrder_global)
    (prime : FunctionFieldIdeal_rational k) :
  let g := ideal_rational_gen prime in
  if (denominator g == 1) && irreducibleb (numerator g) then
    exists I, forall fuel, p_radical (n + fuel).+1 self prime = Some (Return I)
  else
    forall fuel, p_radical fuel self prime = Some (Raise (ValueError "not a prime ideal"%string)).
Proof.
rewrite /p_radical; case: (boolP (_ && _)) => [/andP[_ irr]|//]; cbv zeta.
have sz := irreducibleb_size irr.
set q := (#|k| ^ _)%N.
have q1 : (1 < q)%N.
  have k1 := finNzRing_gt1 k.
  apply: (leq_trans k1); rewrite /q -{1}[#|k|]expn1 leq_pexp2l //; first exact: ltnW.
  by rewrite -subn1 subn_gt0.
have lt_n : (n < q + n)%N by rewrite -{1}[n]add0n ltn_add2r ltnW.
have [e eE _] := exp_loop_terminates q1 q1 lt_n.
eexists => fuel.
by rewrite -addSn (exp_loop_more_fuel fuel eE).
Qed.
End GlobalMaximalOrder.

(** ** The rational function field as an extension of degree one *)

Section DegreeOne.

Variable k : finFieldType.

Local Notation o := {poly k}.
Local Notation K := {fraction {poly k}}.

(** The entries of a matrix with one column. *)
Definition entries (mat : seq 'rV[o]_1) : seq o := map (fun r : 'rV[o]_1 => r 0 0) mat.

(** The Hermite form with monic pivot of a matrix with one column: the gcd
    of the entries, followed by zero rows. *)
Definition hermite_form_one_column (mat : seq 'rV[o]_1) : seq 'rV[o]_1 :=
  if mat is _ :: mat' then const_mx (gcd_list (entries mat)) :: nseq (size mat') 0
  else [::].

(** The inverse of the fractional ideal (g/d) k[x] of k(x), where g is the
    gcd of the entries of the matrix of the ideal and d its denominator. *)
Definition invert_one_column (I : FunctionFieldIdeal_global k 1) :
    result (FunctionFieldIdeal_global k 1) :=
  let g := gcd_list (entries (_hnf I)) in
  if (g != 0) && (_denominator I != 0) then
    Return (mkFunctionFieldIdeal_global [:: const_mx (_denominator I)] g)
  else Raise ZeroDivisionError.

(** The coordinate of an element of k(x) in a basis with one element. *)
Definition coordinate_one_column (basis : 1.-tuple K) (e : K) : 'rV[K]_1 :=
  const_mx (e / tnth basis ord0).

(** k[x] as the order of k(x) with the basis (1,). *)
Definition order_one_column : FunctionFieldMaximalOrder_global k K 1 :=
  mkFunctionFieldMaximalOrder_global [tuple 1] [:: [:: const_mx 1]] None.

Lemma one_columnE (R : Type) (r : 'rV[R]_1) : r = const_mx (r 0 0).
Proof. by apply/rowP => j; rewrite mxE ord1. Qed.

Lemma gcd_bezout (x a : o) : exists u v : o, gcd x a = u * x + v * a.
Proof.
have [[u v] /= uvE] := Bezoutp x a.
have [G0|Gn0] := eqVneq (gcdp x a) 0.
  by exists 0, 0; rewrite /gcd G0 scaler0 !mul0r addr0.
have Bn0 : u * x + v * a != 0 by rewrite (eqp_eq0 uvE).
have lcB : lead_coef (u * x + v * a) != 0 by rewrite lead_coef_eq0.
have lcG : lead_coef (gcdp x a) != 0 by rewrite lead_coef_eq0.
exists ((lead_coef (u * x + v * a))^-1 *: u), ((lead_coef (u * x + v * a))^-1 *: v).
rewrite -!scalerAl -scalerDr /gcd.
apply: (scalerI lcB); rewrite !scalerA (mulfV lcB) scale1r.
by rewrite mulrC -scalerA -(eqp_eq uvE) scalerA (mulVf lcG) scale1r.
Qed.

Lemma span_over_gcd_fold (mat s : seq 'rV[o]_1) (a : o) :
  {subset s <= mat} -> span_over mat (const_mx a) ->
  span_over mat (const_mx (foldl (fun g vi => gcd vi g) a (entries s))).
Proof.
elim: s a => [|r s IH] a //= sub sa; apply: IH.
  by move=> r' r'_in; apply: sub; rewrite inE r'_in orbT.
have [u [v ->]] := gcd_bezout (r 0 0) a.
have -> : const_mx (u * r 0 0 + v * a) = u *: r + v *: const_mx a :> 'rV[o]_1.
  by apply/rowP => j; rewrite !mxE ord1.
by apply: span_over_add; [apply: sub; exact: mem_head | apply: span_over_scale].
Qed.

Lemma span_over_gcd (mat : seq 'rV[o]_1) :
  span_over mat (const_mx (gcd_list (entries mat))).
Proof.
have c0 : const_mx 0 = 0 :> 'rV[o]_1 by apply/rowP => j; rewrite !mxE.
by apply: span_over_gcd_fold => //; rewrite c0; exact: span_over_zero.
Qed.

Lemma dvdp_gcd_entries (mat : seq 'rV[o]_1) (r : 'rV[o]_1) :
  r \in mat -> gcd_list (entries mat) %| r 0 0.
Proof.
move=> r_in; have [] := @gcd_foldl _ (entries mat) [::] 0 => [//|m _|gdv _].
  exact: dvdp0.
by apply: gdv; apply: (map_f (fun r : 'rV[o]_1 => r 0 0)).
Qed.

Lemma span_over_one_column (mat : seq 'rV[o]_1) (w : 'rV[o]_1) :
  span_over mat w <-> exists q : o, w = const_mx (q * gcd_list (entries mat)).
Proof.
split=> [|[q ->]]; last first.
  have -> : const_mx (q * gcd_list (entries mat))
            = q *: const_mx (gcd_list (entries mat)) :> 'rV[o]_1.
    by apply/rowP => j; rewrite !mxE.
  by apply: span_over_scale; apply: span_over_gcd.
elim=> [|a r w' r_in _ [q ->]].
  by exists 0; apply/rowP => j; rewrite !mxE mul0r.
have /dvdpP[c cE] := dvdp_gcd_entries r_in.
by exists (a * c + q); apply/rowP => j; rewrite !mxE ord1 cE mulrDl mulrA.
Qed.

Lemma hermite_form_one_column_spec : hermite_form_spec hermite_form_one_column.
Proof.
move=> mat w; split; apply: span_over_incl => r.
- case: mat => [|r0 mat] //=; rewrite inE => /orP[/eqP->|]; first exact: span_over_gcd.
  by rewrite mem_nseq => /andP[_ /eqP->]; apply: span_over_zero.
- move=> r_in; have /dvdpP[c cE] := dvdp_gcd_entries r_in.
  case: mat r_in cE => [|r0 mat] // _ cE.
  have -> : r = c *: const_mx (gcd_list (entries (r0 :: mat))).
    by apply/rowP => j; rewrite !mxE ord1.
  by apply: span_over_scale; apply: span_over_row; rewrite /= mem_head.
Qed.

Lemma ideal_module_one_column (I : FunctionFieldIdeal_global k 1) (e : K) :
  ideal_module I (const_mx e)
    <-> exists q : o, e = (q * gcd_list (entries (_hnf I)))%:F / (_denominator I)%:F.
Proof.
split=> [[w /span_over_one_column[q ->] /rowP/(_ 0)]|[q ->]].
  by rewrite !mxE mulrC => ->; exists q.
exists (const_mx (q * gcd_list (entries (_hnf I)))).
  by apply/span_over_one_column; exists q.
by apply/rowP => j; rewrite !mxE mulrC.
Qed.

Lemma order_mem_one_column (e : K) :
  order_mem coordinate_one_column order_one_column e <-> exists p : o, e = p%:F.
Proof.
rewrite /order_mem /coordinate_vector /coordinate_one_column /= tnth0 divr1.
split=> [/(_ 0)|[p ->] j]; last by rewrite mxE denominator_tofrac.
by rewrite mxE => den1; exists (numerator e); rewrite {1}[e]numdenE den1 tofrac1 divr1.
Qed.

Lemma invert_one_column_spec :
  ideal_invert_spec coordinate_one_column invert_one_column order_one_column.
Proof.
move=> I J; rewrite /invert_one_column.
set g := gcd_list _; set d := _denominator I.
case: ifP => // /andP[gn0 dn0] [<-] a.
have gF : g%:F != 0 :> K by rewrite tofrac_eq0.
have dF : d%:F != 0 :> K by rewrite tofrac_eq0.
have lc0 : lead_coef d != 0 by rewrite lead_coef_eq0.
have mem_I c : ideal_mem coordinate_one_column order_one_column I c
               <-> exists q : o, c = (q * g)%:F / d%:F.
  rewrite /ideal_mem /coordinate_vector /coordinate_one_column /= tnth0 divr1.
  exact: ideal_module_one_column.
have mem_J : ideal_mem coordinate_one_column order_one_column
               (mkFunctionFieldIdeal_global [:: const_mx d] g) a
             <-> exists q : o, a = (q * ((lead_coef d)^-1 *: d))%:F / g%:F.
  rewrite /ideal_mem /coordinate_vector /coordinate_one_column /= tnth0 divr1.
  rewrite ideal_module_one_column /= /gcd_list /= mxE /gcd gcdp0.
  by [].
split=> [/mem_J[q ->] c /mem_I[q' ->]|mul_in].
  apply/order_mem_one_column; exists (q * q' * (lead_coef d)^-1%:P).
  rewrite -mul_polyC !tofracM.
  set Q := q%:F; set Q' := q'%:F; set C := _%:P%:F; set D := d%:F; set G := g%:F.
  rewrite -[Q' * G / D]mulrA mulrACA (mulKf gF) [Q * (C * D)]mulrA.
  by rewrite [Q * C * D * Q']mulrAC (mulfK dF) [Q * C * Q']mulrAC.
apply/mem_J.
have /order_mem_one_column[p pE] : order_mem coordinate_one_column order_one_column
                                     (a * (g%:F / d%:F)).
  by apply: mul_in; apply/mem_I; exists 1; rewrite mul1r.
exists (p * (lead_coef d)%:P).
have aE : a = p%:F * d%:F / g%:F.
  by rewrite -pE -!mulrA [d%:F^-1 * _]mulrA (mulVf dF) mul1r (mulfV gF) mulr1.
rewrite aE; congr (_ / _); rewrite -tofracM; congr (_%:F).
by rewrite -mulrA mul_polyC scalerA (mulfV lc0) scale1r.
Qed.

End DegreeOne.

(** The codifferent and the different of the order k[x] of k(x), for the
    field k with three elements and the identity as trace: the Hermite form
    and the inverse of one-column ideals fulfil what the code expects. *)
Lemma codifferent_different_example :
  let self := order_one_column 'F_3 in
  let T := _codifferent_matrix id self in
  [/\ forall i j : 'I_1, T i j = tnth (_basis self) i * tnth (_basis self) j,
      if T \in unitmx then
        exists2 C, codifferent id (@hermite_form_one_column _) self = Return C
                 & forall v, ideal_module C v <-> module_generated_by (columns (invmx T)) v
      else codifferent id (@hermite_form_one_column _) self = Raise ZeroDivisionError
    & match different id (@hermite_form_one_column _) (@invert_one_column _) self with
      | Return D =>
          exists2 C, codifferent id (@hermite_form_one_column _) self = Return C
                   & is_inverse_ideal (@coordinate_one_column _) self C D
      | Raise e =>
          codifferent id (@hermite_form_one_column _) self = Raise e
          \/ exists2 C, codifferent id (@hermite_form_one_column _) self = Return C
                      & invert_one_column C = Raise e
      end].
Proof.
exact: (codifferent_different_spec id (@hermite_form_one_column_spec _)
          (@invert_one_column_spec _)).
Defined.


(* ========================================================================== *)
(** * Part E.  The basis of an order                                          *)
(* ========================================================================== *)

Section RationalModules.

(** The modules over k[x] inside the rational function field k(x), seen as a
    vector space of dimension 1 over itself: such a module is generated by
    one element, which represents it. *)
Variable k : fieldType.

Local Notation o := {poly k}.
Local Notation K := {fraction {poly k}}.

(** [V.span(gens, base_ring=R)]: the generator of the fractional ideal. *)
Definition rational_span (gens : seq K) : K :=
  if MaximalOrder_rational_ideal (@GensList k _ gens) is Return J
  then ideal_rational_gen J else 0.

(** [M.rank()]. *)
Definition rational_rank (M : K) : nat := if M == 0 then 0%N else 1%N.

(** [a in M]: a is a polynomial multiple of the generator. *)
Definition rational_contains (M : K) (a : K) : bool :=
  if M == 0 then a == 0 else denominator (a / M) == 1.

Lemma monic_dvd1 (p : o) : p \is monic -> p %| 1 -> p = 1.
Proof.
move=> pm; rewrite dvdp1 => /eqP sz.
have /size_poly1P[c cn0 pE] : size p == 1%N by rewrite sz.
by move: pm; rewrite pE monicE lead_coefC => /eqP->.
Qed.

Lemma rational_span_unit (c : k) : c != 0 -> rational_span [:: c%:P%:F] = 1.
Proof.
move=> cn0; rewrite /rational_span /MaximalOrder_rational_ideal /=.
have cF : (c%:P%:F : K) != 0 by rewrite tofrac_eq0 polyC_eq0.
rewrite cF /= denominator_tofrac.
have /lcm_list_spec[dm _ dlst] : all (fun p : o => p \is monic) [:: 1].
  by rewrite /= monic1.
have d1 : lcm_list [:: (1 : o)] = 1.
  by apply: monic_dvd1 => //; apply: dlst => p; rewrite inE => /eqP->.
rewrite d1 (to_monic_id (monic1 _)) /= tofrac1 mul1r numerator_tofrac.
have /gcd_list_spec[gm gdv _] : has (fun p : o => p != 0) [:: c%:P].
  by rewrite /= polyC_eq0 cn0.
have g1 : gcd_list [:: c%:P] = 1.
  apply: monic_dvd1 => //.
  have := gdv _ (mem_head _ _) => /dvdp_trans; apply.
  by rewrite dvdp1 size_polyC cn0.
by rewrite g1 (to_monic_id (monic1 _)) /= tofrac1 divr1.
Qed.

Lemma rational_contains_poly (p : o) : rational_contains 1 p%:F.
Proof. by rewrite /rational_contains oner_eq0 divr1 denominator_tofrac. Qed.

End RationalModules.

Section BasisOfOrders.

(** The constant field of a rational function field. *)
Variable k0 : fieldType.

(** A global function field, with what the constructors of its maximal order
    and of its maximal infinite order take from it. *)
Variable k : finFieldType.
Variable F : fieldType.
Variable n : nat.
Variable module_coordinate_vector : n.-tuple F -> F -> 'rV[{fraction {poly k}}]_n.
Variable minimal_polynomial : F -> {poly {fraction {poly k}}}.
Variable power_coordinate_vector : F -> nat -> F -> seq {fraction {poly k}}.
Variable factor : {poly k} -> seq ({poly k} * nat).
Variable infinite_module : Type.
Variable infinite_span_of_basis : seq F -> result infinite_module.

(** A function field with the modules that a basis-given order and a
    basis-given infinite order use. *)
Variable L : fieldType.
Variable field_degree : nat.
Variable module : Type.
Variable span : seq L -> module.
Variable rank : module -> nat.
Variable contains : module -> L -> bool.
Variable format_basis : seq L -> String.string.
Variable ambient : Type.
Variable span_of_basis : seq L -> result ambient.
Variable dimension : ambient -> nat.
Variable integral_coordinates : ambient -> L -> result bool.

Local Notation MaximalOrder_global_init :=
  (FunctionFieldMaximalOrder_global_init module_coordinate_vector minimal_polynomial
     power_coordinate_vector factor).
Local Notation MaximalOrderInfinite_global_init :=
  (FunctionFieldMaximalOrderInfinite_global_init infinite_span_of_basis).
Local Notation Order_basis_init :=
  (FunctionFieldOrder_basis_init field_degree span rank contains format_basis).
Local Notation OrderInfinite_basis_init :=
  (FunctionFieldOrderInfinite_basis_init field_degree format_basis span_of_basis dimension
     integral_coordinates).


End BasisOfOrders.


(* ========================================================================== *)
(** * Part F.  Decomposition of primes: the Buchmann-Lenstra splitting        *)
(* ========================================================================== *)

Section BuchmannLenstra.

(** The constant field and the residue field [Fp] of the base prime, with the
    lift [fr] of its elements to polynomials; [n = F.degree()] is positive. *)
Variable k : finFieldType.
Variable Fp : finFieldType.
Variable fr : Fp -> {poly k}.
Variable n' : nat.

Local Notation n := n'.+1.
Local Notation V := 'rV[Fp]_n.
Local Notation q := #|Fp|.

(** The multiplication table of O/pO: [mtable i j] is [mtable[i][j]]. *)
Variable mtable : 'I_n -> 'I_n -> V.

(** What [split] takes from Sage:
    - [quotient_abstract h] is [V.quotient_abstract(h.row_space())];
    - [kernel_basis H] is [VsW.hom(images, VsW).kernel().basis()] for the
      matrix H whose rows are [images];
    - [solve_left m v] is [matrix(m).solve_left(v)], [None] when it raises
      ValueError;
    - [factor p] is [p.factor()] and [xgcd f g] is [f.xgcd(g)];
    - [echelon_form] is the echelon form of a matrix given by its rows;
    - [format_polys f g] is ["{} and {}".format(f, g)]. *)
Record quotient_space : Type := mkQuotientSpace {
  dimension : nat;
  to_VsW : 'M[Fp]_(n, dimension);
  lift_to_V : 'M[Fp]_(dimension, n)
}.

Variable quotient_abstract : seq V -> quotient_space.
Variable kernel_basis : forall r : nat, 'M[Fp]_r -> seq 'rV[Fp]_r.
Variable solve_left : forall r : nat, seq 'rV[Fp]_r -> 'rV[Fp]_r -> option (seq Fp).
Variable factor : {poly Fp} -> seq ({poly Fp} * nat).
Variable xgcd : {poly Fp} -> {poly Fp} -> {poly Fp} * {poly Fp} * {poly Fp}.
Variable echelon_form : seq V -> seq V.
Variable format_polys : {poly Fp} -> {poly Fp} -> String.string.

(** The ideal classes: [hermite_form_euclidean] as in Part D, and the Hermite
    form of the ideal pO. *)
Variable hermite_form_euclidean : seq 'rV[{poly k}]_n -> seq 'rV[{poly k}]_n.
Variable pO_hnf : seq 'rV[{poly k}]_n.

(** [Ob = matrix.identity(Fp, n)]: [Ob i] is the row [Ob[i]]. *)
Definition Ob (i : 'I_n) : V := delta_mx 0 i.

(** [liftb(Ib)]. *)
Definition liftb (Ib : seq V) : FunctionFieldIdeal_global k n :=
  let m := [seq map_mx fr v | v <- Ib] ++ pO_hnf in
  _ideal_from_vectors_and_denominator hermite_form_euclidean m 1 true.

(** [cut_last_zero_rows(h)]:
    [i = h.nrows(); while i > 0 and h.row(i-1).is_zero(): i -= 1; h[:i]]. *)
Definition cut_last_zero_rows (h : seq V) : seq V :=
  rev (drop (find (fun v => v != 0) (rev h)) (rev h)).

(** [mul_vec(v1, v2)]. *)
Definition mul_vec (v1 v2 : V) : V :=
  \sum_(i < n) \sum_(j < n) (v1 0 i * v2 0 j) *: mtable i j.

(** [pow(v, r)]: [m = v; while r > 1: m = mul_vec(m, v); r -= 1]. *)
Definition pow (v : V) (r : nat) : V := iter r.-1 (fun m => mul_vec m v) v.

(** [add(Ib, Jb)]. *)
Definition add (Ib Jb : seq V) : seq V := cut_last_zero_rows (echelon_form (Ib ++ Jb)).

(** [a.support()]: the indices of the nonzero entries. *)
Definition support (r : nat) (a : 'rV[Fp]_r) : seq nat :=
  [seq val i | i <- enum 'I_r & a 0 i != 0].

(** The matrix of the map [x -> to_VsW(pow(x, q) - x)] on the basis
    [l = [lift_to_V(b) for b in VsW.basis()]]. *)
Definition frobenius_matrix (Q : quotient_space) : 'M[Fp]_(dimension Q) :=
  \matrix_(i, j) ((pow (row i (lift_to_V Q)) q - row i (lift_to_V Q)) *m to_VsW Q) 0 j.

(** The loop computing the minimal polynomial of a:
    [while True: v = to_VsW(apow);
       try: sol = matrix(m).solve_left(v)
       except ValueError: m.append(v); apow = mul_vec(apow, a); continue
       break].
    [fuel] bounds the number of passes; [None] when it is used up. *)
Fixpoint minpol_loop (Q : quotient_space) (a : V) (fuel : nat)
    (m : seq 'rV[Fp]_(dimension Q)) (apow : V) :
    option (seq 'rV[Fp]_(dimension Q) * seq Fp) :=
  if fuel is fuel'.+1 then
    let v := apow *m to_VsW Q in
    match solve_left m v with
    | Some sol => Some (m, sol)
    | None => minpol_loop a fuel' (rcons m v) (mul_vec apow a)
    end
  else None.

(** [(fac/f).expand()] for the first factor f of fac: the product of the
    remaining factors, with their multiplicities. *)
Definition expand (fac : seq ({poly Fp} * nat)) : {poly Fp} :=
  \prod_(fe <- fac) fe.1 ^+ fe.2.

Definition divide_by_first (fac : seq ({poly Fp} * nat)) : seq ({poly Fp} * nat) :=
  if fac is (f, e) :: fac' then (if e == 1%N then fac' else (f, e.-1) :: fac') else [::].

(** What one call of [split(h)] does before it calls itself: it returns a
    list of primes with their degrees, or reaches the two recursive calls
    [split(h1) + split(h2)]. *)
Variant split_outcome : Type :=
| Primes of seq (FunctionFieldIdeal_global k n * nat)
| Subspaces of seq V & seq V.

(** The body of [split(h)]. *)
Definition split_step (fuel : nat) (h : seq V) : option (result split_outcome) :=
  let Q := quotient_abstract h in
  let K_basis := kernel_basis (frobenius_matrix Q) in
  if size K_basis == 0%N then Some (Return (Primes [::]))
  else if size K_basis == 1%N then Some (Return (Primes [:: (liftb h, dimension Q)]))
  else
    match [seq a <- K_basis | support a != [:: 0%N]] with
    | [::] => Some (Raise (AssertionError "No appropriate value found"%string))
    | a :: _ =>
      let a := a *m lift_to_V Q in
      match minpol_loop a fuel [:: Ob 0 *m to_VsW Q] a with
      | None => None
      | Some (m, sol) =>
        let minpol := 'X^(size sol) - Poly sol in
        let fac := factor minpol in
        match fac with
        | [::] => Some (Raise (IndexError "list index out of range"%string))
        | (f, _) :: _ =>
          let g := expand (divide_by_first fac) in
          let: (d, u, v) := xgcd f g in
          if d != 1 then
            Some (Raise (AssertionError
                           (String.append "Not relatively prime " (format_polys f g))))
          else
            let e := (\sum_(cm <- zip (u * f) m) cm.1 *: cm.2) *m lift_to_V Q in
            let h1 := add h [seq mul_vec e (Ob i) | i <- enum 'I_n] in
            let h2 := add h [seq mul_vec (Ob 0 - e) (Ob i) | i <- enum 'I_n] in
            Some (Return (Subspaces h1 h2))
        end
      end
    end.

(** [split(h)]: the recursion [split(h1) + split(h2)], with [fuel]
    bounding its depth. *)
Fixpoint split (fuel : nat) (h : seq V) :
    option (result (seq (FunctionFieldIdeal_global k n * nat))) :=
  if fuel is fuel'.+1 then
    match split_step fuel' h with
    | None => None
    | Some (Raise e) => Some (Raise e)
    | Some (Return (Primes l)) => Some (Return l)
    | Some (Return (Subspaces h1 h2)) =>
      match split fuel' h1 with
      | None => None
      | Some (Raise e) => Some (Raise e)
      | Some (Return l1) =>
        match split fuel' h2 with
        | None => None
        | Some (Raise e) => Some (Raise e)
        | Some (Return l2) => Some (Return (l1 ++ l2))
        end
      end
    end
  else None.

(** ** The contracts of the collaborators, and the shape of the input *)

(** The rows of a matrix given as a list. *)
Definition matrix_of_rows (r : nat) (m : seq 'rV[Fp]_r) : 'M[Fp]_(size m, r) :=
  \matrix_(i < size m) nth 0 m i.

(** O/pO with [mul_vec] is a commutative and associative algebra whose
    identity is the first basis element. *)
Definition is_algebra : Prop :=
  [/\ forall x y z : V, mul_vec (mul_vec x y) z = mul_vec x (mul_vec y z),
      forall x y : V, mul_vec x y = mul_vec y x
    & forall x : V, mul_vec (Ob 0) x = x].

(** The row space of h is an ideal of O/pO. *)
Definition is_ideal (h : seq V) : Prop :=
  forall w x : V, (w <= matrix_of_rows h)%MS -> (mul_vec w x <= matrix_of_rows h)%MS.

(** [V.quotient_abstract(W)]: the projection has kernel W, and the lift is a
    section of it. *)
Definition quotient_abstract_spec (h : seq V) : Prop :=
  let Q := quotient_abstract h in
  (forall v : V, (v *m to_VsW Q == 0) = (v <= matrix_of_rows h)%MS)
  /\ lift_to_V Q *m to_VsW Q = 1%:M.

(** The basis of a kernel lies in the kernel. *)
Definition kernel_basis_spec (h : seq V) : Prop :=
  let H := frobenius_matrix (quotient_abstract h) in
  forall b, b \in kernel_basis H -> b *m H = 0.

(** [solve_left] returns a solution when there is one, and only then. *)
Definition solve_left_spec : Prop :=
  forall (r : nat) (m : seq 'rV[Fp]_r) (v : 'rV[Fp]_r),
    match solve_left m v with
    | Some sol => size sol = size m /\ v = \sum_(i < size m) nth 0 sol i *: nth 0 m i
    | None => ~~ (v <= matrix_of_rows m)%MS
    end.

(** A monic polynomial that is not constant is the product of its factors. *)
Definition factor_spec : Prop :=
  forall p : {poly Fp}, p \is monic -> (1 < size p)%N ->
    expand (factor p) = p /\ all (fun fe => 0 < fe.2)%N (factor p).

(** The first component of [f.xgcd(g)] is the monic greatest common divisor. *)
Definition xgcd_spec : Prop := forall f g : {poly Fp}, (xgcd f g).1.1 = gcd f g.

(** ** The multiplication of O/pO as a matrix algebra *)

(** The matrix of the map [x -> mul_vec(x, a)]. *)
Definition mul_matrix (a : V) : 'M[Fp]_n := \matrix_(i < n) mul_vec (Ob i) a.

Lemma mul_vec_Ob (i : 'I_n) (a : V) : mul_vec (Ob i) a = \sum_(j < n) a 0 j *: mtable i j.
Proof.
have zero (i' : 'I_n) : i' != i -> \sum_(j < n) (Ob i 0 i' * a 0 j) *: mtable i' j = 0.
  move=> ne_i'; apply: big1 => j _.
  by rewrite /Ob mxE eqxx /= (negPf ne_i') mul0r scale0r.
rewrite /mul_vec (bigD1 i) //= (big1 _ _ _ zero) addr0.
by apply: eq_bigr => j _; rewrite /Ob mxE !eqxx mul1r.
Qed.

Lemma mul_vecE (x a : V) : mul_vec x a = x *m mul_matrix a.
Proof.
rewrite [x in RHS]row_sum_delta mulmx_suml /mul_vec; apply: eq_bigr => i _.
rewrite -scalemxAl -rowE rowK mul_vec_Ob scaler_sumr.
by apply: eq_bigr => j _; rewrite scalerA.
Qed.

Lemma mul_matrix_linear (c : Fp) (a b : V) :
  mul_matrix (c *: a + b) = c *: mul_matrix a + mul_matrix b.
Proof.
apply/row_matrixP => i; rewrite !(rowK, linearD, linearZ) /= !rowK !mul_vec_Ob.
rewrite scaler_sumr -big_split /=; apply: eq_bigr => j _.
by rewrite !mxE scalerDl scalerA.
Qed.

Lemma mul_matrix_sum (I : Type) (s : seq I) (c : I -> Fp) (a : I -> V) :
  mul_matrix (\sum_(i <- s) c i *: a i) = \sum_(i <- s) c i *: mul_matrix (a i).
Proof.
elim/big_rec2: _ => [|i A b _ <-]; last by rewrite mul_matrix_linear.
by apply/row_matrixP => i; rewrite rowK row0 mul_vec_Ob big1 // => j _; rewrite mxE scale0r.
Qed.

Lemma pow_mul_matrix (x : V) (s : nat) : pow x s.+1 = x *m mul_matrix x ^+ s.
Proof.
rewrite /pow /=; elim: s => [|s IH] /=; first by rewrite expr0 mulmx1.
by rewrite IH mul_vecE exprSr mulmxA.
Qed.

(** ** The branches of one call of [split] *)

Lemma size_gt1 (T : Type) (s : seq T) : (1 < size s)%N -> (size s == 0%N) = false /\ (size s == 1%N) = false.
Proof. by case: s => [|x [|y s]]. Qed.

(** When the kernel has dimension at least 2 and contains an element whose
    support is not [0], the call gets to the minimal polynomial: it does not
    return a prime, and it does not fail for want of an element. *)
Lemma split_step_chooses (fuel : nat) (h : seq V) :
  let K_basis := kernel_basis (frobenius_matrix (quotient_abstract h)) in
  (1 < size K_basis)%N -> has (fun a => support a != [:: 0%N]) K_basis ->
  match split_step fuel h with
  | Some (Return (Primes _)) => False
  | Some (Raise e) => e <> AssertionError "No appropriate value found"%string
  | _ => True
  end.
Proof.
move=> K_basis /size_gt1[sz0 sz1]; rewrite has_filter /split_step -/K_basis sz0 sz1.
case: [seq _ <- _ | _] => [//|a l] _.
case: minpol_loop => [[m sol]|] //.
case: factor => [|[f e] fac] //.
by case: xgcd => [[d u] v]; case: ifP.
Qed.

(** The call fails the assertion on the gcd when the first component of the
    xgcd of the first factor and of the product of the others is not 1. *)
Lemma split_step_not_coprime (fuel : nat) (h : seq V) (a : 'rV[Fp]_(dimension (quotient_abstract h)))
    (l m : seq 'rV[Fp]_(dimension (quotient_abstract h))) (sol : seq Fp)
    (f : {poly Fp}) (e : nat) (fac : seq ({poly Fp} * nat)) :
  let Q := quotient_abstract h in
  let K_basis := kernel_basis (frobenius_matrix Q) in
  let g := expand (divide_by_first ((f, e) :: fac)) in
  (1 < size K_basis)%N ->
  [seq a <- K_basis | support a != [:: 0%N]] = a :: l ->
  minpol_loop (a *m lift_to_V Q) fuel [:: Ob 0 *m to_VsW Q] (a *m lift_to_V Q) = Some (m, sol) ->
  factor ('X^(size sol) - Poly sol) = (f, e) :: fac ->
  (xgcd f g).1.1 != 1 ->
  split_step fuel h
    = Some (Raise (AssertionError (String.append "Not relatively prime " (format_polys f g)))).
Proof.
move=> Q K_basis g /size_gt1[sz0 sz1] Efilter Eloop Efac.
rewrite /split_step -/Q -/K_basis sz0 sz1 Efilter Eloop Efac -/g.
by case: (xgcd f g) => [[d u] v] /= ->.
Qed.

Lemma mul_vec_Ob_Ob (i j : 'I_n) : mul_vec (Ob i) (Ob j) = mtable i j.
Proof.
rewrite mul_vec_Ob (bigD1 j) //= big1 => [j' ne_j'|].
  by rewrite /Ob mxE eqxx (negPf ne_j') scale0r.
by rewrite /Ob mxE !eqxx scale1r addr0.
Qed.

Lemma mul_vec_entry (x : V) (j c : 'I_n) :
  mul_vec x (Ob j) 0 c = \sum_(i < n) x 0 i * mtable i j 0 c.
Proof.
rewrite mul_vecE mxE; apply: eq_bigr => i _.
by rewrite /mul_matrix mxE mul_vec_Ob_Ob.
Qed.

(** ** Powers in characteristic p *)

Lemma card_finField_pchar (E : finFieldType) :
  exists2 p, p \in [pchar E] & exists e, #|E| = (p ^ e)%N.
Proof.
have [p p_pr pE] := finPcharP E.
exists p => //; exists (logn p #|E|).
exact: (card_pprimeChar pE).
Qed.

Lemma pchar_matrix (E : fieldType) (m p : nat) :
  p \in [pchar E] -> p \in [pchar 'M[E]_m.+1].
Proof.
move=> pE; rewrite inE (pcharf_prime pE) /=.
by rewrite -scaler_nat (pcharf0 pE) scale0r.
Qed.

Section FrobeniusPower.

Variables (R : nzRingType) (p : nat).
Hypothesis pR : p \in [pchar R].

Lemma exprD_pchar_comm (e : nat) (x y : R) :
  GRing.comm x y -> (x + y) ^+ (p ^ e) = x ^+ (p ^ e) + y ^+ (p ^ e).
Proof.
move=> cxy; elim: e => [|e IH]; first by rewrite !expr1.
rewrite expnSr !exprM IH -!(pFrobenius_autE pR) pFrobenius_autD_comm //.
by apply: commrX; apply/commr_sym/commrX/commr_sym.
Qed.

Lemma expr_sum_pchar_comm (I : Type) (s : seq I) (A : I -> R) (e : nat) :
  (forall i j, GRing.comm (A i) (A j)) ->
  (\sum_(i <- s) A i) ^+ (p ^ e) = \sum_(i <- s) A i ^+ (p ^ e).
Proof.
move=> cA; elim: s => [|i s IH].
  by rewrite !big_nil expr0n eqn0Ngt expn_gt0 prime_gt0 // (pcharf_prime pR).
rewrite !big_cons exprD_pchar_comm ?IH //.
by apply: commr_sum => j _.
Qed.

End FrobeniusPower.

(** ** One call of [split], for an ideal of O/pO *)

Section SplitProof.

Variable h : seq V.

Hypothesis alg : is_algebra.
Hypothesis ideal_h : is_ideal h.
Hypothesis quot : quotient_abstract_spec h.
Hypothesis kerb : kernel_basis_spec h.
Hypothesis solve : solve_left_spec.
Hypothesis fact : factor_spec.
Hypothesis xg : xgcd_spec.

Let Q := quotient_abstract h.
Let W := matrix_of_rows h.

Lemma mul_matrixM (x y : V) : mul_matrix (mul_vec x y) = mul_matrix x *m mul_matrix y.
Proof.
have [assoc _ _] := alg.
apply/row_matrixP => i; rewrite rowK -assoc !mul_vecE.
by rewrite row_mul rowE.
Qed.

Lemma mul_matrix_comm (x y : V) : GRing.comm (mul_matrix x) (mul_matrix y).
Proof.
have [_ comm _] := alg.
have E a b : mul_matrix a * mul_matrix b = mul_matrix (mul_vec a b).
  by rewrite mul_matrixM.
by rewrite /GRing.comm !E comm.
Qed.

Lemma mul_matrix_unit (x : V) : Ob 0 *m mul_matrix x = x.
Proof. by have [_ _ unit] := alg; rewrite -mul_vecE unit. Qed.

Lemma powE (x : V) (s : nat) : pow x s.+1 = Ob 0 *m mul_matrix x ^+ s.+1.
Proof. by rewrite pow_mul_matrix exprS mulmxA mul_matrix_unit. Qed.

(** The q-th power map of O/pO is linear over Fp. *)
Lemma pow_card_sum (I : Type) (s : seq I) (c : I -> Fp) (x : I -> V) :
  pow (\sum_(i <- s) c i *: x i) q = \sum_(i <- s) c i *: pow (x i) q.
Proof.
have [p pFp [e qE]] := card_finField_pchar Fp.
have q0 : (0 < q)%N by rewrite cardG_gt0 || exact: (ltnW (finNzRing_gt1 Fp)).
rewrite -(prednK q0) !powE (prednK q0) mul_matrix_sum qE.
have cM (i j : I) : GRing.comm (c i *: mul_matrix (x i)) (c j *: mul_matrix (x j)).
  rewrite /GRing.comm -!scalerAl -!scalerAr !scalerA [c j * c i]mulrC.
  by rewrite (mul_matrix_comm (x i) (x j)).
rewrite (expr_sum_pchar_comm (pchar_matrix n' pFp) _ _ cM).
rewrite mulmx_sumr; apply: eq_bigr => i _.
rewrite -qE exprZn expf_card -scalemxAr.
by rewrite -{2}(prednK q0) powE (prednK q0).
Qed.

Local Notation P := (to_VsW Q).
Local Notation Lm := (lift_to_V Q).

Lemma row_frobenius_matrix (i : 'I_(dimension Q)) :
  row i (frobenius_matrix Q) = (pow (row i Lm) q - row i Lm) *m P.
Proof. by apply/rowP => j; rewrite !mxE. Qed.

(** The elements of the kernel satisfy a^q = a in O/H. *)
Lemma kernel_frobenius (b : 'rV[Fp]_(dimension Q)) :
  b \in kernel_basis (frobenius_matrix Q) ->
  (pow (b *m Lm) q - b *m Lm) *m P = 0.
Proof.
move=> /kerb; rewrite -/Q => bH.
rewrite [b *m Lm]mulmx_sum_row pow_card_sum -sumrB mulmx_suml.
rewrite -[RHS]bH [b *m _]mulmx_sum_row; apply: eq_bigr => i _.
by rewrite -scalerBr -scalemxAl row_frobenius_matrix.
Qed.

(** The row space of h is stable under multiplication. *)
Lemma stable_mul (a v : V) : v *m P = 0 -> (v *m mul_matrix a) *m P = 0.
Proof.
have [kerP _] := quot; rewrite -/Q in kerP.
move=> /eqP; rewrite kerP => vW.
by have := ideal_h a vW; rewrite -kerP mul_vecE => /eqP.
Qed.

Lemma stable_horner (a : V) (R : {poly Fp}) (v : V) :
  v *m P = 0 -> (v *m horner_mx (mul_matrix a) R) *m P = 0.
Proof.
elim/poly_ind: R v => [|R c IH] v vP; first by rewrite rmorph0 mulmx0 mul0mx.
rewrite rmorphD rmorphM /= horner_mx_X horner_mx_C mulmxDr mulmxDl.
rewrite mulmxA stable_mul ?IH // add0r.
by rewrite mul_mx_scalar -scalemxAl vP scaler0.
Qed.

(** ** Evaluation of polynomials at the chosen element *)

Section Evaluation.

Variable a : V.

Local Notation A := (mul_matrix a).

Definition ev (R : {poly Fp}) : 'rV[Fp]_(dimension Q) := (Ob 0 *m horner_mx A R) *m P.

Lemma ev_is_linear (c : Fp) (R S : {poly Fp}) : ev (c *: R + S) = c *: ev R + ev S.
Proof. by rewrite /ev linearP /= mulmxDr mulmxDl -scalemxAr -scalemxAl. Qed.

Lemma ev0 : ev 0 = 0.
Proof. by rewrite /ev rmorph0 mulmx0 mul0mx. Qed.

Lemma evD (R S : {poly Fp}) : ev (R + S) = ev R + ev S.
Proof. by rewrite /ev rmorphD /= mulmxDr mulmxDl. Qed.

Lemma evB (R S : {poly Fp}) : ev (R - S) = ev R - ev S.
Proof. by rewrite /ev rmorphB /= mulmxBr mulmxBl. Qed.

Lemma evXn (i : nat) : ev 'X^i = (Ob 0 *m A ^+ i) *m P.
Proof. by rewrite /ev rmorphXn /= horner_mx_X. Qed.

Lemma evC (c : Fp) : ev c%:P = c *: ev 1.
Proof. by rewrite -[c%:P]mulr1 mul_polyC -[c *: 1]addr0 ev_is_linear ev0 addr0. Qed.

Lemma ev_mulr (R S : {poly Fp}) : ev R = 0 -> ev (R * S) = 0.
Proof.
move=> evR; rewrite /ev rmorphM /= mulmxA.
exact: stable_horner.
Qed.

Lemma ev_sum (R : {poly Fp}) : ev R = \sum_(i < size R) R`_i *: ev 'X^i.
Proof.
rewrite -{1}[R]coefK poly_def /ev rmorph_sum /= mulmx_sumr mulmx_suml.
by apply: eq_bigr => i _; rewrite linearZ /= -scalemxAr -scalemxAl.
Qed.

End Evaluation.

(** ** The loop computing the minimal polynomial *)

Section MinimalPolynomial.

Variable a : V.

Local Notation A := (mul_matrix a).
Local Notation r := (dimension Q).

(** The list [m] after s passes, and the independence of its rows. *)
Definition powers (s : nat) : seq 'rV[Fp]_r := [seq ev a 'X^i | i <- iota 0 s].

Definition powers_mx (s : nat) : 'M[Fp]_(s, r) := \matrix_(i < s) ev a 'X^i.

Definition independent (s : nat) : Prop :=
  forall R : {poly Fp}, (size R <= s)%N -> ev a R = 0 -> R = 0.

Lemma size_powers (s : nat) : size (powers s) = s.
Proof. by rewrite size_map size_iota. Qed.

Lemma nth_powers (s i : nat) : (i < s)%N -> nth 0 (powers s) i = ev a 'X^i.
Proof. by move=> lt_is; rewrite (nth_map 0%N) ?size_iota // nth_iota. Qed.

Lemma matrix_of_rows_powers (s : nat) :
  matrix_of_rows (powers s) = castmx (esym (size_powers s), erefl r) (powers_mx s).
Proof.
apply/matrixP => i j; rewrite castmxE /= cast_ord_id mxE [RHS]mxE.
have lt_is : (i < s)%N by have := ltn_ord i; rewrite {2}size_powers.
by rewrite (nth_powers lt_is).
Qed.

Lemma sub_powers (s : nat) (v : 'rV[Fp]_r) :
  (v <= matrix_of_rows (powers s))%MS = (v <= powers_mx s)%MS.
Proof. by rewrite matrix_of_rows_powers eqmx_cast. Qed.

Lemma ev_sum_leq (R : {poly Fp}) (s : nat) :
  (size R <= s)%N -> ev a R = \sum_(i < s) R`_i *: ev a 'X^i.
Proof.
move=> /leq_sizeP Rs.
have {1}-> : R = \poly_(i < s) R`_i.
  by apply/polyP => i; rewrite coef_poly; case: ltnP => // /Rs.
rewrite poly_def /ev rmorph_sum /= mulmx_sumr mulmx_suml.
by apply: eq_bigr => i _; rewrite linearZ /= -scalemxAr -scalemxAl.
Qed.

Lemma ev_sub_powers (R : {poly Fp}) (s : nat) :
  (size R <= s)%N -> (ev a R <= powers_mx s)%MS.
Proof.
move=> /ev_sum_leq->; apply: summx_sub => i _; apply: scalemx_sub.
by rewrite -(rowK (fun i : 'I_s => ev a 'X^i)) row_sub.
Qed.

Lemma independent_row_free (s : nat) : independent s -> row_free (powers_mx s).
Proof.
move=> ind; rewrite -kermx_eq0; apply/rowV0P => u /sub_kermxP uM.
pose R : {poly Fp} := Poly [seq u 0 i | i <- enum 'I_s].
have szR : (size R <= s)%N.
  by rewrite (leq_trans (size_Poly _)) // size_map size_enum_ord.
have coefR (i : 'I_s) : R`_i = u 0 i.
  by rewrite coef_Poly (nth_map i) ?size_enum_ord // nth_ord_enum.
have R0 : R = 0.
  apply: ind => //; rewrite (ev_sum_leq szR) -[RHS]uM mulmx_sum_row.
  by apply: eq_bigr => i _; rewrite coefR rowK.
by apply/rowP => i; rewrite -coefR R0 coef0 mxE.
Qed.

Lemma independent_leq (s : nat) : independent s -> (s <= r)%N.
Proof.
move=> /independent_row_free; rewrite /row_free => /eqP rk.
by have := rank_leq_col (powers_mx s); rewrite rk.
Qed.

Lemma independent_full (v : 'rV[Fp]_r) : independent r -> (v <= powers_mx r)%MS.
Proof.
move=> /independent_row_free; rewrite /row_free => rk.
by apply: submx_full; rewrite /row_full.
Qed.

Lemma independentS (s : nat) :
  independent s -> ~~ (ev a 'X^s <= powers_mx s)%MS -> independent s.+1.
Proof.
move=> ind notin R szR evR.
have [c0|cn0] := eqVneq R`_s 0.
  apply: ind => //; apply/leq_sizeP => j; rewrite leq_eqVlt => /orP[/eqP<-//|lt_sj].
  by move/leq_sizeP: szR; apply.
case/negP: notin.
pose R' := R - R`_s *: 'X^s.
have szR' : (size R' <= s)%N.
  apply/leq_sizeP => j; rewrite leq_eqVlt coefB coefZ coefXn => /orP[/eqP<-|lt_sj].
    by rewrite eqxx mulr1 subrr.
  rewrite gtn_eqF // mulr0 subr0.
  by move/leq_sizeP: szR; apply.
have -> : ev a 'X^s = ev a (- (R`_s)^-1 *: R').
  rewrite -[_ *: R']addr0 ev_is_linear ev0 addr0 evB evR sub0r.
  rewrite -[R`_s *: 'X^s]addr0 ev_is_linear ev0 addr0 scalerN scaleNr opprK scalerA.
  by rewrite mulVf // scale1r.
by apply: ev_sub_powers; rewrite (leq_trans (size_scale_leq _ _)).
Qed.

Lemma powersS (s : nat) : powers s.+1 = rcons (powers s) (ev a 'X^s).
Proof. by rewrite /powers -[s.+1]addn1 iotaD add0n map_cat cats1. Qed.

Lemma minpol_loop_spec (fuel s : nat) :
  independent s -> (r < s + fuel)%N ->
  exists m sol,
    [/\ minpol_loop a fuel (powers s) (Ob 0 *m A ^+ s) = Some (m, sol),
        (s <= size sol)%N, ev a ('X^(size sol) - Poly sol) = 0
      & independent (size sol)].
Proof.
elim: fuel s => [|fuel IH] s ind.
  by rewrite addn0 ltnNge independent_leq.
rewrite addnS -addSn => lt_r /=.
have := solve (powers s) (Ob 0 *m A ^+ s *m P).
rewrite -evXn; case: solve_left => [sol [szsol vE]|].
  exists (powers s), sol; rewrite szsol size_powers; split=> //.
  have szP : (size (Poly sol) <= s)%N.
    by rewrite (leq_trans (size_Poly _)) // szsol size_powers.
  rewrite evB vE (ev_sum_leq szP).
  rewrite -(big_mkord predT (fun i => nth 0 sol i *: nth 0 (powers s) i)).
  rewrite -(big_mkord predT (fun i => (Poly sol)`_i *: ev a 'X^i)) size_powers.
  apply/eqP; rewrite subr_eq0; apply/eqP.
  rewrite !big_nat; apply: eq_bigr => i /andP[_ lt_is].
  by rewrite coef_Poly nth_powers.
rewrite sub_powers => notin.
have -> : mul_vec (Ob 0 *m A ^+ s) a = Ob 0 *m A ^+ s.+1.
  by rewrite mul_vecE exprSr -mulmxE mulmxA.
rewrite -powersS.
have ind' : independent s.+1 by exact: independentS.
have [m [sol [loopE /ltnW le_s ev_minpol indf]]] := IH s.+1 ind' lt_r.
by exists m, sol.
Qed.

End MinimalPolynomial.

(** ** The minimal polynomial divides X^q - X *)

Lemma separable_Xq_sub_X : separable_poly ('X^q - 'X : {poly Fp}).
Proof. by rewrite finField_genPoly separable_prod_XsubC index_enum_uniq. Qed.

Lemma monic_Xn_sub_Poly (sol : seq Fp) :
  let minpol := 'X^(size sol) - Poly sol in
  minpol \is monic /\ size minpol = (size sol).+1.
Proof.
have lt_sz : (size (- Poly sol) < size ('X^(size sol) : {poly Fp}))%N.
  by rewrite size_polyN size_polyXn ltnS size_Poly.
split; last by rewrite size_polyDl // size_polyXn.
by rewrite monicE lead_coefDl // lead_coefXn.
Qed.

Lemma ev_Xq_sub_X (a : V) : (pow a q - a) *m P = 0 -> ev a ('X^q - 'X) = 0.
Proof.
have q0 : (0 < q)%N := ltnW (finNzRing_gt1 Fp).
rewrite evB -['X]expr1 !evXn expr1 mul_matrix_unit -mulmxBl.
by rewrite -{1}(prednK q0) powE (prednK q0).
Qed.

Lemma independent_dvdp (a : V) (sol : seq Fp) :
  independent a (size sol) -> ev a ('X^(size sol) - Poly sol) = 0 ->
  ev a ('X^q - 'X) = 0 -> 'X^(size sol) - Poly sol %| 'X^q - 'X.
Proof.
move=> ind ev_minpol ev_q; have [mon sz] := monic_Xn_sub_Poly sol.
set minpol := 'X^_ - _ in ev_minpol mon sz *.
apply/modp_eq0P; apply: ind.
  by rewrite -ltnS -sz ltn_modp monic_neq0.
have := ev_q; rewrite {1}(divp_eq ('X^q - 'X) minpol) evD mulrC.
by rewrite (ev_mulr _ ev_minpol) add0r.
Qed.

Lemma Poly1 (c : Fp) : Poly [:: c] = c%:P.
Proof. by rewrite /= cons_poly_def mul0r add0r. Qed.

(** From the state in which [split] starts it, the loop stops, and the
    polynomial it yields divides X^q - X. *)
Lemma minpol_loop_dvdp (fuel : nat) (a : V) :
  (pow a q - a) *m P = 0 -> (dimension Q < fuel)%N ->
  exists m sol,
    [/\ minpol_loop a fuel [:: Ob 0 *m P] a = Some (m, sol), (0 < size sol)%N
      & 'X^(size sol) - Poly sol %| 'X^q - 'X].
Proof.
move=> aq lt_fuel.
have start : [:: Ob 0 *m P] = powers a 1.
  by rewrite /powers /= evXn expr0 mulmx1.
have aE : a = Ob 0 *m mul_matrix a ^+ 1 by rewrite expr1 mul_matrix_unit.
have [ev1|ev1] := eqVneq (ev a 1) 0.
  case: fuel lt_fuel => // fuel _; rewrite /= -/Q.
  have := solve [:: Ob 0 *m P] (a *m P).
  have -> : a *m P = 0.
    by rewrite {1}aE -evXn -[X in ev a X]mul1r ev_mulr.
  case: solve_left => [[|c [|c' sol]] [] // _ _|]; last by rewrite sub0mx.
  exists [:: Ob 0 *m P], [:: c]; split=> //.
  by rewrite Poly1 expr1 dvdp_XsubCl rootE hornerD hornerN hornerXn hornerX expf_card subrr.
have ind1 : independent a 1.
  move=> R /size1_polyC-> evR; move: evR; rewrite evC => /eqP.
  by rewrite scaler_eq0 (negPf ev1) orbF => /eqP->.
have lt_r : (dimension Q < 1 + fuel)%N by rewrite add1n ltnW.
have [m [sol [loopE lt0 ev_minpol ind]]] := minpol_loop_spec ind1 lt_r.
rewrite expr1 mul_matrix_unit -start in loopE.
exists m, sol; split=> //.
exact: (independent_dvdp ind ev_minpol (ev_Xq_sub_X aq)).
Qed.

(** ** The factors of the minimal polynomial *)

Lemma expand_divide_by_first (f : {poly Fp}) (e : nat) (fac : seq ({poly Fp} * nat)) :
  (0 < e)%N -> f * expand (divide_by_first ((f, e) :: fac)) = expand ((f, e) :: fac).
Proof.
case: e => // e _; rewrite /expand /= big_cons /=.
by case: e => [|e]; rewrite ?expr1 // big_cons /= mulrA -exprS.
Qed.

Lemma coprimep_gcd (f g : {poly Fp}) : coprimep f g -> gcd f g = 1.
Proof.
rewrite /coprimep /gcd => /size_poly1P[c cn0 ->].
by rewrite lead_coefC -mul_polyC -polyCM mulVf.
Qed.

End SplitProof. End BuchmannLenstra.

(** ** Models of what [split] takes from Sage, meeting the contracts *)

Section CollaboratorModels.

Variable Fp : finFieldType.
Variable n' : nat.

Local Notation n := n'.+1.

(** The quotient by the row space of h; the quotient by the zero space is
    the space itself, with the identity maps. *)
Definition quotient_abstract_model (h : seq 'rV[Fp]_n) : quotient_space Fp n' :=
  if h is [::] then mkQuotientSpace 1%:M 1%:M
  else
    let C := cokermx (matrix_of_rows h) in
    mkQuotientSpace (col_base C) (pinvmx (col_base C)).

(** A basis of the left kernel of H; the kernel of the zero matrix has the
    standard basis. *)
Definition kernel_basis_model (r : nat) (H : 'M[Fp]_r) : seq 'rV[Fp]_r :=
  if H == 0 then [seq delta_mx 0 i | i <- enum 'I_r]
  else [seq row i (row_base (kermx H)) | i <- enum 'I_(\rank (kermx H))].

Definition solve_left_model (r : nat) (m : seq 'rV[Fp]_r) (v : 'rV[Fp]_r) :
    option (seq Fp) :=
  let M := matrix_of_rows m in
  if (v <= M)%MS then Some [seq (v *m pinvmx M) 0 i | i <- enum 'I_(size m)] else None.

(** A factorisation that splits off the linear factor of a root c of p, with
    its multiplicity: p = (X - c)^e * r; it is the factorisation into
    irreducible factors when r is constant or irreducible. *)
Definition factor_model (p : {poly Fp}) : seq ({poly Fp} * nat) :=
  if [pick c | root p c] is Some c then
    let e := mup c p in
    let r := p %/ ('X - c%:P) ^+ e in
    ('X - c%:P, e) :: (if r == 1 then [::] else [:: (r, 1%N)])
  else [:: (p, 1%N)].

Definition xgcd_model (f g : {poly Fp}) : {poly Fp} * {poly Fp} * {poly Fp} :=
  (gcd f g, (egcdp f g).1, (egcdp f g).2).

Lemma quotient_abstract_model_spec (h : seq 'rV[Fp]_n) :
  quotient_abstract_spec quotient_abstract_model h.
Proof.
rewrite /quotient_abstract_spec; case: h => [|r h] /=.
  split=> [v|]; rewrite mulmx1 //.
  have -> : @matrix_of_rows Fp n [::] = 0 by exact: flatmx0.
  by apply/eqP/idP => [->|/submx0null //]; rewrite sub0mx.
set C := cokermx _; split=> [v|].
  rewrite submxE -/C.
  have -> : v *m C = v *m col_base C *m row_base C by rewrite -mulmxA mulmx_base.
  by rewrite -(inj_eq (row_free_inj (row_base_free C))) mul0mx.
exact: mulVpmx (col_base_full C).
Qed.

Lemma kernel_basis_model_spec (mtable : 'I_n -> 'I_n -> 'rV[Fp]_n)
    (quotient_abstract : seq 'rV[Fp]_n -> quotient_space Fp n') (h : seq 'rV[Fp]_n) :
  kernel_basis_spec mtable quotient_abstract kernel_basis_model h.
Proof.
rewrite /kernel_basis_spec /kernel_basis_model /=; set H := frobenius_matrix _ _ => b.
case: eqP => [-> _|_ /mapP[i _ ->]]; first by rewrite mulmx0.
have /sub_kermxP E : (row_base (kermx H) <= kermx H)%MS by rewrite eq_row_base.
by rewrite -row_mul E row0.
Qed.

Lemma solve_left_model_spec : solve_left_spec solve_left_model.
Proof.
move=> r m v; rewrite /solve_left_model; case: ifPn => // vM.
split; first by rewrite size_map size_enum_ord.
rewrite -{1}(mulmxKpV vM) mulmx_sum_row; apply: eq_bigr => i _.
by rewrite rowK (nth_map i) ?size_enum_ord // nth_ord_enum.
Qed.

Lemma factor_model_spec : factor_spec factor_model.
Proof.
move=> p pm _; rewrite /factor_model; have pn0 := monic_neq0 pm.
case: pickP => [c rc|_]; last by rewrite /expand big_cons big_nil expr1 mulr1.
have dv : ('X - c%:P) ^+ mup c p %| p by rewrite -mup_geq.
have e_gt0 : (0 < mup c p)%N by rewrite -XsubC_dvd // dvdp_XsubCl.
case: eqP => [r1|_]; rewrite /expand !big_cons big_nil /= ?e_gt0 ?mulr1.
  by rewrite -[RHS](divpK dv) r1 mul1r.
by rewrite expr1 mulrC divpK.
Qed.

Lemma xgcd_model_spec : xgcd_spec xgcd_model.
Proof. by []. Qed.

Lemma is_ideal_nil (mtable : 'I_n -> 'I_n -> 'rV[Fp]_n) : is_ideal mtable [::].
Proof.
move=> w x /submxP[D ->]; have -> : D = 0 by apply/matrixP => i [].
by rewrite mul0mx mul_vecE mul0mx sub0mx.
Qed.

Lemma support_delta (r : nat) (i : 'I_r) : support (delta_mx 0 i : 'rV[Fp]_r) = [:: val i].
Proof.
rewrite /support (@eq_filter _ _ (pred1 i)) => [j|].
  by rewrite mxE eqxx /=; case: (j == i); rewrite ?oner_eq0 ?eqxx.
by rewrite enumT -[filter _ _]/(enum (pred1 i)) enum1.
Qed.

Lemma size_kernel_basis_model0 (r : nat) : size (kernel_basis_model (0 : 'M[Fp]_r)) = r.
Proof. by rewrite /kernel_basis_model eqxx size_map size_enum_ord. Qed.

Lemma filter_kernel_basis_model0 (r : nat) :
  [seq a <- kernel_basis_model (0 : 'M[Fp]_r.+2) | support a != [:: 0%N]]
    = [seq delta_mx 0 (lift ord0 i) | i <- enum 'I_r.+1].
Proof.
rewrite /kernel_basis_model eqxx enum_ordSl /= support_delta eqxx /=.
rewrite -map_comp; apply/all_filterP/allP => a /mapP[i _ ->] /=.
by rewrite support_delta.
Qed.

End CollaboratorModels.

(** ** An instance: the algebra F_2 x F_2 with the basis (1, e), e = (1, 0) *)

Definition example_mtable (i j : 'I_2) : 'rV['F_2]_2 :=
  delta_mx 0 (if (i == 0) && (j == 0) then 0 else 1).

Lemma F2_cases (T : 'F_2 -> Prop) : T 0 -> T 1 -> forall x, T x.
Proof.
move=> T0 T1 [[|[|x]] ltx] //.
  by have -> : Ordinal ltx = 0 by apply/val_inj.
by have -> : Ordinal ltx = 1 by apply/val_inj.
Qed.

Lemma example_mul_vec (x y : 'rV['F_2]_2) :
  mul_vec example_mtable x y
    = \row_j (if j == 0 then x 0 0 * y 0 0
              else x 0 0 * y 0 1 + x 0 1 * y 0 0 + x 0 1 * y 0 1).
Proof.
apply/rowP => j; rewrite /mul_vec !big_ord_recl !big_ord0 !mxE /=.
rewrite !addr0 -!val_eqE /=.
have e1 : (lift ord0 ord0 : 'I_2) = 1 by apply/val_inj.
by case: j => [[|[|j]] ltj] //=; rewrite ?mulr1 ?mulr0 ?addr0 ?add0r ?addrA ?e1.
Qed.

Lemma example_is_algebra : is_algebra example_mtable.
Proof.
split=> [x y z|x y|x]; rewrite !example_mul_vec; apply/rowP => j; rewrite !mxE /=.
- move: (x 0 0) (x 0 1) (y 0 0) (y 0 1) (z 0 0) (z 0 1); case: (j == 0) => {x y z}.
    by do 6![elim/F2_cases]; apply/eqP.
  by do 6![elim/F2_cases]; apply/eqP.
- move: (x 0 0) (x 0 1) (y 0 0) (y 0 1); case: (j == 0) => {x y}.
    by do 4![elim/F2_cases]; apply/eqP.
  by do 4![elim/F2_cases]; apply/eqP.
- rewrite !mul1r !mul0r !addr0.
  by case: j => [[|[|j]] ltj] //=; congr (x 0 _); apply/val_inj.
Qed.

Lemma example_frobenius_matrix :
  frobenius_matrix example_mtable (quotient_abstract_model [::]) = 0.
Proof.
have mul1 (v : 'rV['F_2]_2) : v *m 1%:M = v by exact: mulmx1.
have row1' (i : 'I_2) : row i (1%:M : 'M['F_2]_2) = delta_mx 0 i by exact: row1.
have sq (i : 'I_2) : pow example_mtable (delta_mx 0 i) 2 = delta_mx 0 i.
  rewrite /pow /= example_mul_vec; apply/rowP => j'; rewrite !mxE /= -!val_eqE /=.
  by case: i j' => [[|[|i]] lti] [[|[|j']] ltj'] //=; rewrite ?(mulr1, mulr0, mul0r, addr0, add0r).
apply/matrixP => i j; rewrite /frobenius_matrix /= mxE mul1 row1' card_Fp // sq.
by rewrite subrr !mxE.
Qed.

Lemma example_chooses (fuel : nat) :
  match split_step (k := 'F_2) (fun c => c%:P) example_mtable
          (@quotient_abstract_model _ _) (@kernel_basis_model _)
          (@solve_left_model _) (@factor_model _) (@xgcd_model _)
          id (fun _ _ => String.EmptyString) id [::] fuel [::] with
  | Some (Return (Primes _)) => False
  | Some (Raise e) => e <> AssertionError "No appropriate value found"%string
  | _ => True
  end.
Proof.
apply: split_step_chooses; rewrite example_frobenius_matrix.
  by rewrite size_kernel_basis_model0.
by rewrite has_filter (filter_kernel_basis_model0 _ 0) enum_ordSl.
Qed.


(** ** An instance whose basis does not start with 1 *)

(** The algebra F_3[y]/(y^3 - y) with the basis (1 - y^2, 1 + y^2, y): it is
    O/pO for the order with the basis (1 - y^2, 1 + y^2, y) of the function
    field F_3(x)[y]/(y^3 - y - x) and the prime p = x.  The row [i][j] of the
    table holds the coordinates of the product of the basis elements i and j. *)
Definition shifted_table : seq (seq (seq 'F_3)) :=
  [:: [:: [:: 1; 0; 0]; [:: 1; 0; 0]; [:: 0; 0; 0]];
      [:: [:: 1; 0; 0]; [:: 2%:R; 2%:R; 0]; [:: 0; 0; 2%:R]];
      [:: [:: 0; 0; 0]; [:: 0; 0; 2%:R]; [:: 1; 2%:R; 0]]].

Definition shifted_mtable (i j : 'I_3) : 'rV['F_3]_3 :=
  \row_c nth 0 (nth [::] (nth [::] shifted_table i) j) c.

Lemma I3_cases (T : 'I_3 -> Prop) :
  T ord0 -> T (lift ord0 ord0) -> T (lift ord0 (lift ord0 ord0)) -> forall i, T i.
Proof.
move=> T0 T1 T2 [[|[|[|i]]] lti] //.
- by have -> : Ordinal lti = ord0 by apply/val_inj.
- by have -> : Ordinal lti = lift ord0 ord0 by apply/val_inj.
- by have -> : Ordinal lti = lift ord0 (lift ord0 ord0) by apply/val_inj.
Qed.

Lemma shifted_cube (i : 'I_3) :
  pow shifted_mtable (delta_mx 0 i) 3 = delta_mx 0 i.
Proof.
rewrite /pow /= -/(Ob 'F_3 i) mul_vec_Ob_Ob; apply/rowP => c.
rewrite mul_vec_entry !big_ord_recl big_ord0 !mxE /=.
by elim/I3_cases: i; elim/I3_cases: c; apply/eqP.
Qed.

Lemma shifted_frobenius_matrix :
  frobenius_matrix shifted_mtable (quotient_abstract_model [::]) = 0.
Proof.
have mul1 (v : 'rV['F_3]_3) : v *m 1%:M = v by exact: mulmx1.
have row1' (i : 'I_3) : row i (1%:M : 'M['F_3]_3) = delta_mx 0 i by exact: row1.
apply/matrixP => i j; rewrite /frobenius_matrix /= mxE mul1 row1' card_Fp //.
by rewrite shifted_cube subrr !mxE.
Qed.

(** The element chosen in the kernel: the second basis element, 1 + y^2. *)
Definition shifted_a : 'rV['F_3]_3 := delta_mx 0 (lift ord0 ord0).

Lemma shifted_filter :
  [seq a <- kernel_basis_model (frobenius_matrix shifted_mtable (quotient_abstract_model [::]))
  | support a != [:: 0%N]]
    = [:: shifted_a; delta_mx 0 (lift ord0 (lift ord0 ord0))].
Proof.
by rewrite shifted_frobenius_matrix (filter_kernel_basis_model0 _ 1) !enum_ordSl enum_ord0.
Qed.

Lemma two_F3 : (2%:R : 'F_3) = -1.
Proof. by apply/val_inj. Qed.

(** The square of 1 + y^2 is 1, which has the coordinates (2, 2, 0). *)
Lemma shifted_a_square :
  mul_vec shifted_mtable shifted_a shifted_a = \row_c nth 0 [:: 2%:R; 2%:R; 0] c.
Proof. by rewrite /shifted_a -/(Ob 'F_3 _) mul_vec_Ob_Ob. Qed.

(** The loop computing the minimal polynomial: 1 + y^2 is not a multiple of
    the first basis element, and its square is twice the first basis element
    plus twice itself. *)
Lemma shifted_not_solvable :
  solve_left_model [:: Ob 'F_3 0] shifted_a = None.
Proof.
rewrite /solve_left_model; case: ifP => // /submxP[D /rowP/(_ (lift ord0 ord0))].
rewrite !mxE big_ord_recl big_ord0 !mxE /= mulr0 addr0 => /eqP.
by rewrite oner_eq0.
Qed.

Lemma shifted_solution :
  solve_left_model [:: Ob 'F_3 0; shifted_a] (mul_vec shifted_mtable shifted_a shifted_a)
    = Some [:: 2%:R; 2%:R].
Proof.
rewrite shifted_a_square /solve_left_model.
set M := matrix_of_rows _; set v := \row_c _.
have vE : v = (\row_c nth 0 [:: 2%:R; 2%:R] c) *m M.
  apply/rowP => c; rewrite !mxE !big_ord_recl big_ord0 !mxE /=.
  by elim/I3_cases: c; apply/eqP.
have sub : (v <= M)%MS by rewrite vE submxMl.
rewrite sub; have := mulmxKpV sub; move: (v *m pinvmx M) => x /rowP xE.
have x0 : x 0 ord0 = 2%:R.
  have := xE ord0; rewrite !mxE !big_ord_recl big_ord0 !mxE /=.
  by rewrite mulr1 mulr0 !addr0.
have x1 : x 0 (lift ord0 ord0) = 2%:R.
  have := xE (lift ord0 ord0); rewrite !mxE !big_ord_recl big_ord0 !mxE /=.
  by rewrite mulr1 mulr0 add0r addr0.
by rewrite /= !enum_ordSl enum_ord0 /= x0 x1.
Qed.

Lemma shifted_minpol_loop :
  minpol_loop shifted_mtable (@solve_left_model _) (Q := quotient_abstract_model [::])
    (shifted_a *m 1%:M) 3 [:: Ob 'F_3 0 *m 1%:M] (shifted_a *m 1%:M)
  = Some ([:: Ob 'F_3 0; shifted_a], [:: 2%:R; 2%:R]).
Proof.
have mul1 (v : 'rV['F_3]_3) : v *m 1%:M = v by exact: mulmx1.
by rewrite /= !mul1 shifted_not_solvable shifted_solution.
Qed.

(** The polynomial that the loop finds: X^2 - 2X - 2 = (X - 1)^2. *)
Lemma shifted_minpol :
  'X^(size [:: (2%:R : 'F_3); 2%:R]) - Poly [:: (2%:R : 'F_3); 2%:R] = ('X - 1%:P) ^+ 2.
Proof.
rewrite /= !cons_poly_def mul0r add0r two_F3 polyCN polyC1 mulN1r.
rewrite sqrrB1 -mulr_natr opprD !opprK addrA; congr (_ + _ + _).
by rewrite -(polyC_natr _ 2) two_F3 polyCN polyC1 mulrN1 opprK.
Qed.

Lemma shifted_factor :
  factor_model ('X^(size [:: (2%:R : 'F_3); 2%:R]) - Poly [:: (2%:R : 'F_3); 2%:R])
    = [:: ('X - 1%:P, 2%N)].
Proof.
rewrite shifted_minpol /factor_model.
have pn0 : ('X - 1%:P) ^+ 2 != 0 :> {poly 'F_3} by rewrite expf_neq0 // polyXsubC_eq0.
case: pickP => [c|/(_ 1)]; last by rewrite root_exp_XsubC eqxx.
rewrite root_exp_XsubC => /eqP->.
by rewrite mup_XsubCX eqxx divpp // eqxx.
Qed.

(** The first basis element is not the identity of this algebra:
    (1 - y^2)(1 + y^2) = 1 - y^2. *)
Lemma shifted_first_not_identity :
  mul_vec shifted_mtable (Ob 'F_3 0) shifted_a = Ob 'F_3 0
  /\ Ob 'F_3 0 != shifted_a.
Proof.
rewrite /shifted_a -/(Ob 'F_3 (lift ord0 ord0)) mul_vec_Ob_Ob; split.
  by apply/rowP => c; rewrite !mxE /=; elim/I3_cases: c; apply/eqP.
by apply/eqP => /rowP/(_ ord0)/eqP; rewrite !mxE.
Qed.

